(** * gosparqled: the recommendation Scope and the popularity ranker

    A shallow embedding of package [autocompletion] (the Scope, its
    connectivity trimming, path expansion, classification and rendering)
    and of the ranking arithmetic of package [eval], followed by the
    properties established about them.

    Conventions
    - a Go [string] is a [string] (a sequence of bytes), a Go [int] is a [Z],
      and where the code adds counts the wrap-around of an [int] of 64 bits
      is written out;
    - [map[string]bool] is a [gmap string bool]; a missing key reads [false];
    - a slice is a [list]; an index out of range and a nil dereference are
      the outcome [Panic] of the [result] monad;
    - the functions of [text/template] are parameters of the model. *)

Set Warnings "-clear-no-such-hyp,-register-all".
From Equations Require Import Equations.
From Stdlib Require Import ZArith Ascii String DecimalString.
From stdpp Require Import gmap strings list.

Open Scope string_scope.
Open Scope list_scope.
Open Scope Z_scope.

(** ** Outcomes: a value, or a run-time panic *)

Inductive result (A : Type) : Type :=
| Ok (a : A)
| Panic.
Arguments Ok {A} a.
Arguments Panic {A}.

#[global] Instance result_ret : MRet result := fun A a => Ok a.

#[global] Instance result_bind : MBind result := fun A B k r =>
  match r with
  | Ok a => k a
  | Panic => Panic
  end.

(** ** Strings *)

(** The byte [0x22]. *)
Definition dquote : string := String (ascii_of_nat 34) EmptyString.

(** [strconv.Itoa]: the decimal digits, with a leading minus sign below zero. *)
Definition Itoa (i : Z) : string := NilZero.string_of_int (Z.to_int i).

(** [s[1:]]: the string without its first byte; out of range on [len(s) = 0]. *)
Definition from1 (s : string) : result string :=
  match s with
  | EmptyString => Panic
  | String _ rest => Ok rest
  end.

(** ** Package autocompletion *)

(** The kind of recommendation, [Type] in the source. *)
Inductive Type_ : Set := NONE | CLASS | PREDICATE | PATH | SUBJECT | OBJECT.

Record triplePattern : Set := { S : string; P : string; O : string }.

#[global] Instance triplePattern_eq_dec : EqDecision triplePattern.
Proof. solve_decision. Defined.

(** The focus variable. *)
Definition POF : string := "?POF".

(** [Template] is the type of a parsed [*template.Template]; the field
    [template] is [None] for the nil pointer.  The embedded [triplePattern]
    is the field [current]. *)
Record Scope (Template : Type) : Type := {
  current : triplePattern;
  Tps : list triplePattern;
  scope : gmap string bool;
  template : option Template;
  Keyword : string;
  pathLength : Z;
  Pof : string
}.
Arguments current {Template} _.
Arguments Tps {Template} _.
Arguments scope {Template} _.
Arguments template {Template} _.
Arguments Keyword {Template} _.
Arguments pathLength {Template} _.
Arguments Pof {Template} _.

(** [scope[k]]: the zero value [false] for a key that is absent. *)
Definition map_index (scope : gmap string bool) (k : string) : bool :=
  default false (scope !! k).

(** [tp.in(scope)] *)
Definition tp_in (tp : triplePattern) (scope : gmap string bool) : bool :=
  if map_index scope (S tp) || map_index scope (P tp) || map_index scope (O tp)
  then true
  else false.

(** [tp.addToScope(scope)] *)
Definition addToScope (tp : triplePattern) (scope : gmap string bool)
  : gmap string bool :=
  <[O tp := true]> (<[P tp := true]> (<[S tp := true]> scope)).

(** The inner loop of [trimToScope]: one pass over [b.Tps]. *)
Definition scan (tps : list triplePattern) (scope : gmap string bool)
  : gmap string bool :=
  foldl (fun sc tp => if tp_in tp sc then addToScope tp sc else sc) scope tps.

(** Every term that occurs in a pattern list. *)
Definition terms (tps : list triplePattern) : gset string :=
  foldr (fun tp acc => {[ S tp; P tp; O tp ]} ∪ acc) ∅ tps.

(** The variant of the outer loop: nothing is left to do once [size] has
    caught up with [len(scope)]; before that, the terms not yet in scope. *)
Definition todo (tps : list triplePattern) (sz : nat)
  (scope : gmap string bool) : nat :=
  if decide (sz = size scope) then 0%nat
  else Datatypes.S (size (terms tps ∖ dom scope)).

(** The outer loop of [trimToScope],
    [for size != len(b.scope) { size = len(b.scope); scan }]. *)
Equations? grow (tps : list triplePattern) (sz : nat)
  (sc : gmap string bool) : gmap string bool
  by wf (todo tps sz sc) lt :=
  grow tps sz sc with decide (sz = size sc) => {
    | left _ => sc
    | right _ => grow tps (size sc) (scan tps sc) }.
Proof.
  clear grow. unfold todo.
  destruct (decide (sz = size sc)) as [|_]; [done|].
  case_decide as Hsz; [lia|]. apply le_n_S, subset_size.
  assert (forall sc, dom sc ⊆ dom (scan tps sc)) as Hincr.
  { clear. induction tps as [|tp tps IH]; intros sc; simpl; [done|].
    etrans; [|apply IH]. destruct (tp_in tp sc); [|done].
    unfold addToScope. rewrite !dom_insert. set_solver. }
  assert (forall sc, dom (scan tps sc) ⊆ terms tps ∪ dom sc) as Hbound.
  { clear. induction tps as [|tp tps IH]; intros sc; simpl; [set_solver|].
    etrans; [apply IH|]. destruct (tp_in tp sc); [|set_solver].
    unfold addToScope. rewrite !dom_insert. set_solver. }
  specialize (Hincr sc). specialize (Hbound sc).
  split; [set_solver|]. intros Hback. apply Hsz.
  rewrite <- !size_dom. f_equal. apply set_eq. intros x.
  split; [apply Hincr|]. intros Hx.
  destruct (decide (x ∈ dom sc)) as [|Hn]; [done|]. exfalso.
  assert (x ∈ terms tps ∖ dom sc) as Hd by (apply Hbound in Hx; set_solver).
  apply Hback in Hd. set_solver.
Qed.

(** [grow] is unfolded through its equation [grow_equation_1] only. *)
#[global] Opaque grow.

(** [b.trimToScope()] *)
Definition trimToScope {Template} (b : Scope Template) : Scope Template :=
  let sc := grow (Tps b) 0%nat {[ POF := true ]} in
  {| current := current b;
     Tps := filter (fun tp => tp_in tp sc = true) (Tps b);
     scope := sc;
     template := template b;
     Keyword := Keyword b;
     pathLength := pathLength b;
     Pof := Pof b |}.

(** An evaluator for [grow] that counts the passes it may still make. *)
Fixpoint grow_run (passes : nat) (tps : list triplePattern) (sz : nat)
  (scope : gmap string bool) : option (gmap string bool) :=
  if decide (sz = size scope) then Some scope
  else match passes with
       | 0%nat => None
       | Datatypes.S n => grow_run n tps (size scope) (scan tps scope)
       end.

(** [b.Reset()]: [b.Tps[:0]] is the empty slice. *)
Definition Reset {Template} (b : Scope Template) : Scope Template :=
  {| current := current b;
     Tps := [];
     scope := scope b;
     template := template b;
     Keyword := EmptyString;
     pathLength := 0;
     Pof := POF |}.

(** [b.addTriplePattern()] *)
Definition addTriplePattern {Template} (b : Scope Template) : Scope Template :=
  {| current := current b;
     Tps := Tps b ++ [ {| S := S (current b); P := P (current b);
                          O := O (current b) |} ];
     scope := scope b;
     template := template b;
     Keyword := Keyword b;
     pathLength := pathLength b;
     Pof := Pof b |}.

(** The loop of [pathPof], [for i := 1; i <= pathLength; i++], with [n]
    iterations left and [i] the loop counter. *)
Fixpoint pathPof_loop (pathLength : Z) (n : nat) (i : Z) (pof : string)
  : string :=
  match n with
  | 0%nat => pof
  | Datatypes.S n' =>
      let pof := if decide (i > 1) then pof +:+ ", " else pof in
      let pof := pof +:+ dquote +:+ "<" +:+ dquote +:+ ", ?POF" +:+ Itoa i
                     +:+ ", " +:+ dquote +:+ ">" +:+ dquote in
      let pof := if decide (i < pathLength)
                 then pof +:+ ", " +:+ dquote +:+ " / " +:+ dquote
                 else pof in
      pathPof_loop pathLength n' (i + 1) pof
  end.

(** [pathPof(pathLength)] *)
Definition pathPof (pathLength : Z) : string :=
  pathPof_loop pathLength (Z.to_nat pathLength) 1 "(concat(" +:+ ") as ?POF)".

(** The loop [for i := 1; i < b.pathLength; i++] of [addIntermediatePath]
    for the pattern [tp]: [n] iterations left, [i] the loop counter, [inter]
    the current intermediate variable and [tps] the value of [b.Tps]. *)
Fixpoint intermediate (tp : triplePattern) (n : nat) (i : Z) (inter : string)
  (tps : list triplePattern) : result (list triplePattern * string) :=
  match n with
  | 0%nat => Ok (tps, inter)
  | Datatypes.S n' =>
      s1 ← from1 (S tp);
      o1 ← from1 (O tp);
      let inter2 := "?" +:+ s1 +:+ o1 +:+ Itoa i in
      let tpInter := {| S := inter; P := "?POF" +:+ Itoa i; O := inter2 |} in
      intermediate tp n' (i + 1) inter2 (tps ++ [tpInter])
  end.

(** [b.addIntermediatePath()]: the range loop stops at the first pattern
    whose predicate is the focus variable. *)
Definition addIntermediatePath {Template} (b : Scope Template)
  : result (Scope Template) :=
  if decide (pathLength b = 0) then Ok b
  else match list_find (fun tp => P tp = POF) (Tps b) with
       | None => Ok b
       | Some (ind, tp) =>
           r ← intermediate tp (Z.to_nat (pathLength b - 1)) 1 (S tp) (Tps b);
           let last t := {| S := r.2;
                            P := "?POF" +:+ Itoa (pathLength b);
                            O := O t |} in
           Ok {| current := current b;
                 Tps := alter last ind r.1;
                 scope := scope b;
                 template := template b;
                 Keyword := Keyword b;
                 pathLength := pathLength b;
                 Pof := pathPof (pathLength b) |}
       end.

(** The loop of [RecommendationType] over [b.Tps]. *)
Fixpoint typeOf (tps : list triplePattern) : Type_ :=
  match tps with
  | [] => NONE
  | tp :: rest =>
      if decide (P tp = "?POF") then PREDICATE
      else if decide (P tp = "a" ∧ O tp = "?POF") then CLASS
      else if decide (O tp = "?POF") then OBJECT
      else if decide (S tp = "?POF") then SUBJECT
      else typeOf rest
  end.

(** [b.RecommendationType()] *)
Definition RecommendationType {Template} (b : Scope Template) : Type_ :=
  if decide (pathLength b ≠ 0) then PATH else typeOf (Tps b).

(** The two functions of [text/template] that the package calls.  [Parse]
    reads a template text and yields the nil template next to its error;
    [Execute] is the text that executing a template on a Scope writes. *)
Section Templates.
Context {Template : Type}.
Variable Parse : string -> option Template.
Variable Execute : Template -> Scope Template -> string.

(** [NewScopeWithTemplate(tmpl)]: the error of [Parse] is dropped. *)
Definition NewScopeWithTemplate (tmpl : string) : Scope Template :=
  {| current := {| S := EmptyString; P := EmptyString; O := EmptyString |};
     Tps := [];
     scope := ∅;
     template := Parse tmpl;
     Keyword := EmptyString;
     pathLength := 0;
     Pof := "?POF" |}.

(** [b.RecommendationQuery()]: the query text and the Scope as the call
    leaves it.  [Execute] on the nil template dereferences it. *)
Definition RecommendationQuery (b : Scope Template)
  : result (string * Scope Template) :=
  let b := trimToScope b in
  b ← addIntermediatePath b;
  match template b with
  | None => Panic
  | Some t => Ok (Execute t b, b)
  end.

End Templates.

(** ** An instance of the template functions

    A reader and an interpreter for the actions that the templates of the
    repository are written with: a field of the dot, [range] over the
    patterns, [if] on a field, and [end].  Text outside actions is copied
    as it is; an action that is not closed is an error of the reader.
    The instance stands for [text/template] on such texts only: it knows no
    space inside an action, no [else], no comment and no printing of a
    slice.  The general properties hold for every [Parse] and [Execute];
    the instance serves to evaluate them on the template of [NewScope]. *)

Inductive token : Set :=
| TText (s : string)
| TAction (s : string).

Inductive node : Set :=
| Text (s : string)
| Field (name : string)
| Range (name : string) (body : list node)
| If (name : string) (body : list node).

Inductive block : Set := RangeBlock | IfBlock.

(** Cuts a text at its action delimiters; [acc] is the piece being read. *)
Fixpoint lex (in_action : bool) (acc : string) (s : string)
  : option (list token) :=
  match s with
  | EmptyString => if in_action then None else Some [TText acc]
  | String c rest =>
      match in_action, rest with
      | false, String c' rest' =>
          if decide (c = "{"%char ∧ c' = "{"%char)
          then toks ← lex true EmptyString rest'; Some (TText acc :: toks)
          else lex in_action (acc +:+ String c EmptyString) rest
      | true, String c' rest' =>
          if decide (c = "}"%char ∧ c' = "}"%char)
          then toks ← lex false EmptyString rest'; Some (TAction acc :: toks)
          else lex in_action (acc +:+ String c EmptyString) rest
      | _, _ => lex in_action (acc +:+ String c EmptyString) rest
      end
  end.

(** [strip p s] is the rest of [s] after its prefix [p]. *)
Fixpoint strip (p s : string) : option string :=
  match p, s with
  | EmptyString, _ => Some s
  | String a p', String b s' => if decide (a = b) then strip p' s' else None
  | _, _ => None
  end.

(** Builds the tree of a token list; [open] holds, for every block that is
    not closed yet, its kind, its field and the nodes read before it. *)
Fixpoint build (toks : list token) (open : list (block * string * list node))
  (cur : list node) : option (list node) :=
  match toks with
  | [] => match open with [] => Some cur | _ => None end
  | TText s :: toks' => build toks' open (cur ++ [Text s])
  | TAction a :: toks' =>
      if decide (a = "end") then
        match open with
        | [] => None
        | (RangeBlock, f, before) :: open' =>
            build toks' open' (before ++ [Range f cur])
        | (IfBlock, f, before) :: open' =>
            build toks' open' (before ++ [If f cur])
        end
      else match strip "range ." a, strip "if ." a, strip "." a with
           | Some f, _, _ => build toks' ((RangeBlock, f, cur) :: open) []
           | _, Some f, _ => build toks' ((IfBlock, f, cur) :: open) []
           | _, _, Some f => build toks' open (cur ++ [Field f])
           | _, _, _ => None
           end
  end.

Definition parse_actions (tmpl : string) : option (list node) :=
  toks ← lex false EmptyString tmpl; build toks [] [].

(** The value of the dot: the Scope, or a pattern inside [range .Tps]. *)
Inductive dot : Type :=
| DotScope (b : Scope (list node))
| DotPattern (tp : triplePattern).

Definition field (d : dot) (name : string) : option string :=
  match d with
  | DotScope b =>
      if decide (name = "Pof") then Some (Pof b)
      else if decide (name = "Keyword") then Some (Keyword b)
      else if decide (name = "S") then Some (S (current b))
      else if decide (name = "P") then Some (P (current b))
      else if decide (name = "O") then Some (O (current b))
      else None
  | DotPattern tp =>
      if decide (name = "S") then Some (S tp)
      else if decide (name = "P") then Some (P tp)
      else if decide (name = "O") then Some (O tp)
      else None
  end.

(** The elements that [range .name] visits. *)
Definition elements_of (d : dot) (name : string) : option (list triplePattern) :=
  match d with
  | DotScope b => if decide (name = "Tps") then Some (Tps b) else None
  | DotPattern _ => None
  end.

(** Whether [if .name] takes its branch: a string or a slice that is not
    empty. *)
Definition truth (d : dot) (name : string) : option bool :=
  match field d name, elements_of d name with
  | Some s, _ => Some (negb (bool_decide (s = EmptyString)))
  | None, Some l => Some (negb (bool_decide (l = [])))
  | None, None => None
  end.

(** Writing stops at the first error: the text written so far, and whether
    the execution may go on. *)
Definition output : Set := string * bool.

Definition andThen (o : output) (k : string -> output) : output :=
  if o.2 then k o.1 else o.

Fixpoint exec (n : node) (d : dot) (out : string) : output :=
  let exec_list := fix exec_list (ns : list node) (d : dot) (out : string)
    : output :=
      match ns with
      | [] => (out, true)
      | n :: ns' => andThen (exec n d out) (exec_list ns' d)
      end in
  let exec_each := fix exec_each (body : list node) (tps : list triplePattern)
    (out : string) : output :=
      match tps with
      | [] => (out, true)
      | tp :: tps' =>
          andThen (exec_list body (DotPattern tp) out) (exec_each body tps')
      end in
  match n with
  | Text s => (out +:+ s, true)
  | Field name =>
      match field d name with
      | Some s => (out +:+ s, true)
      | None => (out, false)
      end
  | Range name body =>
      match elements_of d name with
      | Some tps => exec_each body tps out
      | None => (out, false)
      end
  | If name body =>
      match truth d name with
      | Some true => exec_list body d out
      | Some false => (out, true)
      | None => (out, false)
      end
  end.

Definition exec_template (t : list node) (b : Scope (list node)) : string :=
  (foldl (fun o n => andThen o (exec n (DotScope b))) (EmptyString, true) t).1.

(** The line feed. *)
Definition nl : string := String (ascii_of_nat 10) EmptyString.

(** The template text of [NewScope]. *)
Definition default_template : string :=
  nl +:+
  "        SELECT DISTINCT {{.Pof}}" +:+ nl +:+
  "        WHERE {" +:+ nl +:+
  "        {{range .Tps}}" +:+ nl +:+
  "            {{.S}} {{.P}} {{.O}} ." +:+ nl +:+
  "        {{end}}" +:+ nl +:+
  "        {{if .Keyword}}" +:+ nl +:+
  "            FILTER regex(?POF, " +:+ dquote +:+ "{{.Keyword}}" +:+ dquote
    +:+ ", " +:+ dquote +:+ "i" +:+ dquote +:+ ")" +:+ nl +:+
  "        {{end}}" +:+ nl +:+
  "        }" +:+ nl +:+
  "        LIMIT 10" +:+ nl +:+
  "    ".

(** [NewScope()] *)
Definition NewScope {Template} (Parse : string -> option Template)
  : Scope Template :=
  NewScopeWithTemplate Parse default_template.

(** ** Package eval *)

Record Recommendation : Set := { item : string; count : Z }.

#[global] Instance Recommendation_eq_dec : EqDecision Recommendation.
Proof. solve_decision. Defined.

Definition ByCount : Set := list Recommendation.

(** The methods that make [ByCount] a [sort.Interface]. *)
Definition Len (bc : ByCount) : Z := Z.of_nat (length bc).

Definition Swap (bc : ByCount) (i j : nat) : result ByCount :=
  match bc !! i, bc !! j with
  | Some ri, Some rj => Ok (<[i := rj]> (<[j := ri]> bc))
  | _, _ => Panic
  end.

Definition Less (bc : ByCount) (i j : nat) : result bool :=
  match bc !! i, bc !! j with
  | Some ri, Some rj => Ok (bool_decide (count ri < count rj))
  | _, _ => Panic
  end.

(** [sort.Reverse(data)]: a new value of the interface around [data] whose
    [Less] is that of [data] with its arguments exchanged; [data] itself
    is not touched. *)
Record reverse : Set := { Interface : ByCount }.

Definition reverse_Less (r : reverse) (i j : nat) : result bool :=
  Less (Interface r) j i.

Definition sort_Reverse (data : ByCount) : reverse := {| Interface := data |}.

Definition MaxInt32 : Z := 2147483647.

(** The loop of [Measure] over the counts that [getRecommendations]
    returned.  Of the four results, the minimum and the maximum are
    modelled; the [float32] mean and the elapsed time are not. *)
Definition Measure (pofs : list Z) : Z * Z :=
  foldl (fun mm c =>
           let min := if decide (c < mm.1) then c else mm.1 in
           let max := if decide (c > mm.2) then c else mm.2 in
           (min, max))
        (MaxInt32, 0) pofs.

(** A binding of the first query: the value of [POF], and the value of
    [count] as [strconv.Atoi] reads it. *)
Record binding : Set := { binding_POF : string; binding_count : Z }.

(** The value that an [int] of 64 bits holds after an addition whose exact
    result is [z]. *)
Definition wrap64 (z : Z) : Z :=
  (z + 9223372036854775808) mod 18446744073709551616 - 9223372036854775808.

(** [counts[v.POF] += count] for every binding; the addition wraps around. *)
Definition countsOf (bindings : list binding) : gmap string Z :=
  foldl (fun counts v =>
           <[binding_POF v := wrap64 (default 0 (counts !! binding_POF v)
                                      + binding_count v)]> counts)
        ∅ bindings.

(** The ranking step of [getRecommendations].  [ranged] is the sequence of
    entries that [for k,v := range counts] yields; the language leaves its
    order open.  The value of [sort.Reverse(pofs)] is dropped, and
    [int(math.Min(10, float64(len(pofs))))] is the smaller of [10] and
    [len(pofs)]. *)
Definition topOf (ranged : list (string * Z)) : ByCount :=
  let pofs : ByCount :=
    foldl (fun pofs kv => pofs ++ [ {| item := kv.1; count := kv.2 |} ])
          [] ranged in
  let _ := sort_Reverse pofs in
  let min := Z.min 10 (Len pofs) in
  take (Z.to_nat min) pofs.

(** The [values] block of the second query. *)
Definition valuesOf (top : ByCount) : string :=
  foldl (fun values r => values +:+ "<" +:+ item r +:+ "> ")
        "values ?POF { " top
  +:+ "}".

(** ** Notions that the properties are stated with *)

(** [t] is the subject, the predicate or the object of [tp]. *)
Definition has_term (tp : triplePattern) (t : string) : Prop :=
  t = S tp ∨ t = P tp ∨ t = O tp.

(** The reachability set: the least set of terms that holds the focus
    variable and, with one term of a pattern, all three of them. *)
Inductive reachable (tps : list triplePattern) : string -> Prop :=
| reachable_POF : reachable tps POF
| reachable_step tp u t :
    tp ∈ tps -> has_term tp u -> reachable tps u -> has_term tp t ->
    reachable tps t.

(** A set of terms that one more pass over the patterns cannot extend. *)
Definition closed (tps : list triplePattern) (X : string -> Prop) : Prop :=
  ∀ tp u t, tp ∈ tps -> has_term tp u -> X u -> has_term tp t -> X t.

(** A pattern with a term in the reachability set. *)
Definition connected (tps : list triplePattern) (tp : triplePattern) : Prop :=
  ∃ u, has_term tp u ∧ reachable tps u.

(** Every key of the map is bound to [true]. *)
Definition all_true (sc : gmap string bool) : Prop :=
  ∀ k v, sc !! k = Some v -> v = true.

(** A term that is a variable: it starts with [?] or [$]. *)
Definition is_variable (t : string) : bool :=
  match t with
  | String c _ => bool_decide (c = "?"%char) || bool_decide (c = "$"%char)
  | EmptyString => false
  end.

(** Two patterns that have the constant [a] in common and no variable:
    a class position at the focus, and a pattern about other variables. *)
Definition typed_focus : triplePattern := {| S := "?s"; P := "a"; O := "?POF" |}.
Definition typed_other : triplePattern := {| S := "?x"; P := "a"; O := "?y" |}.

Definition typed_scope : Scope (list node) :=
  {| current := typed_other;
     Tps := [typed_focus; typed_other];
     scope := ∅;
     template := None;
     Keyword := EmptyString;
     pathLength := 0;
     Pof := POF |}.

(** The decision order of the classifier on one pattern. *)
Definition rule (tp : triplePattern) : option Type_ :=
  if decide (P tp = POF) then Some PREDICATE
  else if decide (P tp = "a" ∧ O tp = POF) then Some CLASS
  else if decide (O tp = POF) then Some OBJECT
  else if decide (S tp = POF) then Some SUBJECT
  else None.

(** The classifier as the specification words it: [PATH] for a path
    length that is not zero; otherwise what the rules give on the first
    pattern that matches one, and [NONE] when no pattern does. *)
Definition classify (pathLength : Z) (tps : list triplePattern) : Type_ :=
  if decide (pathLength ≠ 0) then PATH
  else default NONE (head (omap rule tps)).

(** The pieces of the path projection: hop [i] is the text
    ["<", ?POFi, ">"], and two hops are joined by the text [, " / ", ]. *)
Definition hop (i : Z) : string :=
  dquote +:+ "<" +:+ dquote +:+ ", ?POF" +:+ Itoa i +:+ ", "
  +:+ dquote +:+ ">" +:+ dquote.

Definition hop_separator : string :=
  ", " +:+ dquote +:+ " / " +:+ dquote +:+ ", ".

(** The projection of a path of [n] hops, in hop order. *)
Definition path_expression (n : Z) : string :=
  "(concat(" +:+ String.concat hop_separator (hop <$> seqZ 1 n)
  +:+ ") as ?POF)".

(** A path of two hops asked of a pattern without a subject. *)
Definition no_subject : Scope (list node) :=
  {| current := {| S := EmptyString; P := "?POF"; O := "?FillVar" |};
     Tps := [ {| S := EmptyString; P := "?POF"; O := "?FillVar" |} ];
     scope := ∅;
     template := None;
     Keyword := EmptyString;
     pathLength := 2;
     Pof := POF |}.

(** The Scope of the query [?s 3/<], before its rendering. *)
Definition three_hops : Scope (list node) :=
  {| current := {| S := "?s"; P := "?POF"; O := "?FillVar" |};
     Tps := [ {| S := "?s"; P := "?POF"; O := "?FillVar" |} ];
     scope := ∅;
     template := None;
     Keyword := EmptyString;
     pathLength := 3;
     Pof := POF |}.

(** The Scope of the query [?s 1/<] with the template of [NewScope]. *)
Definition one_hop : Scope (list node) :=
  {| current := {| S := "?s"; P := "?POF"; O := "?FillVar" |};
     Tps := [ {| S := "?s"; P := "?POF"; O := "?FillVar" |} ];
     scope := ∅;
     template := parse_actions default_template;
     Keyword := EmptyString;
     pathLength := 1;
     Pof := POF |}.

(** The Scope of the query [?s a <] with the template of [NewScope]. *)
Definition class_focus : Scope (list node) :=
  {| current := {| S := "?s"; P := "a"; O := "?POF" |};
     Tps := [ {| S := "?s"; P := "a"; O := "?POF" |} ];
     scope := ∅;
     template := parse_actions default_template;
     Keyword := EmptyString;
     pathLength := 0;
     Pof := POF |}.

(** A template text whose action is not closed. *)
Definition unclosed_action : string := "SELECT {{.Pof".

(** The least and the greatest element of a list of counts. *)
Definition is_minimum (m : Z) (l : list Z) : Prop :=
  m ∈ l ∧ ∀ c, c ∈ l -> m <= c.

Definition is_maximum (m : Z) (l : list Z) : Prop :=
  m ∈ l ∧ ∀ c, c ∈ l -> c <= m.

(** A ranking in which no candidate comes before one with a greater count. *)
Definition descending (bc : ByCount) : Prop :=
  ∀ i j ri rj, (i < j)%nat -> bc !! i = Some ri -> bc !! j = Some rj ->
               count rj <= count ri.

(** Eleven candidates, the candidate of rank [i] counted [i] times, and the
    entries of their count map in the order of the bindings, which is one of
    the orders in which the range over the map may yield them. *)
Definition eleven : list binding :=
  [ {| binding_POF := "a"; binding_count := 1 |};
    {| binding_POF := "b"; binding_count := 2 |};
    {| binding_POF := "c"; binding_count := 3 |};
    {| binding_POF := "d"; binding_count := 4 |};
    {| binding_POF := "e"; binding_count := 5 |};
    {| binding_POF := "f"; binding_count := 6 |};
    {| binding_POF := "g"; binding_count := 7 |};
    {| binding_POF := "h"; binding_count := 8 |};
    {| binding_POF := "i"; binding_count := 9 |};
    {| binding_POF := "j"; binding_count := 10 |};
    {| binding_POF := "k"; binding_count := 11 |} ].

Definition eleven_ranged : list (string * Z) :=
  (fun v => (binding_POF v, binding_count v)) <$> eleven.

(** Two candidates, and the entries of their count map in the order of the
    bindings. *)
Definition two : list binding :=
  [ {| binding_POF := "a"; binding_count := 1 |};
    {| binding_POF := "b"; binding_count := 2 |} ].

Definition two_ranged : list (string * Z) :=
  (fun v => (binding_POF v, binding_count v)) <$> two.

(** The Scope of the query [?a ?b ?c . ?s <]. *)
Definition two_components : Scope (list node) :=
  {| current := {| S := "?s"; P := "?POF"; O := "?FillVar" |};
     Tps := [ {| S := "?a"; P := "?b"; O := "?c" |};
              {| S := "?s"; P := "?POF"; O := "?FillVar" |} ];
     scope := ∅;
     template := parse_actions default_template;
     Keyword := EmptyString;
     pathLength := 0;
     Pof := POF |}.

(** ** The setters of the Scope

    [TrimSpace] is [strings.TrimSpace], and [Atoi] is the value that
    [strconv.Atoi] returns, its error being dropped by the caller. *)
Section Setters.
Context {Template : Type}.
Variable TrimSpace : string -> string.
Variable Atoi : string -> Z.

(** [b.setKeyword(keyword)] *)
Definition setKeyword (keyword : string) (b : Scope Template) : Scope Template :=
  if decide (String.length keyword ≠ 0%nat)
  then {| current := current b;
          Tps := Tps b;
          scope := scope b;
          template := template b;
          Keyword := keyword;
          pathLength := pathLength b;
          Pof := Pof b |}
  else b.

(** The assignment to a field of the embedded pattern. *)
Definition withCurrent (tp : triplePattern) (b : Scope Template)
  : Scope Template :=
  {| current := tp;
     Tps := Tps b;
     scope := scope b;
     template := template b;
     Keyword := Keyword b;
     pathLength := pathLength b;
     Pof := Pof b |}.

(** [b.setSubject(s)] *)
Definition setSubject (s : string) (b : Scope Template) : Scope Template :=
  let s := TrimSpace s in
  if decide (String.length s ≠ 0%nat)
  then withCurrent {| S := s; P := P (current b); O := O (current b) |} b
  else b.

(** [b.setPredicate(p)] *)
Definition setPredicate (p : string) (b : Scope Template) : Scope Template :=
  let p := TrimSpace p in
  if decide (String.length p ≠ 0%nat)
  then withCurrent {| S := S (current b); P := p; O := O (current b) |} b
  else b.

(** [b.setObject(o)] *)
Definition setObject (o : string) (b : Scope Template) : Scope Template :=
  let o := TrimSpace o in
  if decide (String.length o ≠ 0%nat)
  then withCurrent {| S := S (current b); P := P (current b); O := o |} b
  else b.

(** [b.setPathLength(lenght)] *)
Definition setPathLength (lenght : string) (b : Scope Template)
  : Scope Template :=
  {| current := current b;
     Tps := Tps b;
     scope := scope b;
     template := template b;
     Keyword := Keyword b;
     pathLength := Atoi lenght;
     Pof := Pof b |}.

(** A call of one of the methods that build a Scope, and a sequence of
    such calls made one after the other. *)
Inductive call : Set :=
| CallSetKeyword (keyword : string)
| CallSetSubject (s : string)
| CallSetPredicate (p : string)
| CallSetObject (o : string)
| CallAddTriplePattern
| CallSetPathLength (lenght : string).

Definition perform (b : Scope Template) (c : call) : Scope Template :=
  match c with
  | CallSetKeyword keyword => setKeyword keyword b
  | CallSetSubject s => setSubject s b
  | CallSetPredicate p => setPredicate p b
  | CallSetObject o => setObject o b
  | CallAddTriplePattern => addTriplePattern b
  | CallSetPathLength lenght => setPathLength lenght b
  end.

Definition run (calls : list call) (b : Scope Template) : Scope Template :=
  foldl perform b calls.

End Setters.

(** ** Further notions *)

(** A pattern list whose subjects and objects are not empty, and a Scope
    in which this holds of the patterns and of the pattern being built. *)
Definition terms_present (tps : list triplePattern) : Prop :=
  Forall (fun tp => S tp ≠ EmptyString ∧ O tp ≠ EmptyString) tps.

Definition well_formed {Template} (b : Scope Template) : Prop :=
  S (current b) ≠ EmptyString ∧ O (current b) ≠ EmptyString ∧
  terms_present (Tps b).

(** Two Scopes that differ at most in their scope map. *)
Definition agree {Template} (b1 b2 : Scope Template) : Prop :=
  current b1 = current b2 ∧ Tps b1 = Tps b2 ∧ template b1 = template b2 ∧
  Keyword b1 = Keyword b2 ∧ pathLength b1 = pathLength b2 ∧ Pof b1 = Pof b2.

(** [s[1:]] where it is in range. *)
Definition drop1 (s : string) : string :=
  match s with
  | EmptyString => EmptyString
  | String _ rest => rest
  end.

(** The variable between hop [i] and hop [i + 1] of the path that expands
    the pattern [tp]; the subject of [tp] before the first hop. *)
Definition inter_var (tp : triplePattern) (i : Z) : string :=
  if decide (i = 0) then S tp
  else "?" +:+ drop1 (S tp) +:+ drop1 (O tp) +:+ Itoa i.

(** Hop [i] of the path, for [i] below the path length, and the last hop. *)
Definition inter_hop (tp : triplePattern) (i : Z) : triplePattern :=
  {| S := inter_var tp (i - 1); P := "?POF" +:+ Itoa i; O := inter_var tp i |}.

Definition last_hop (tp : triplePattern) (n : Z) : triplePattern :=
  {| S := inter_var tp (n - 1); P := "?POF" +:+ Itoa n; O := O tp |}.

(** The sum of the counts that a binding list gives for the candidate [k]. *)
Definition sum_for (k : string) (bindings : list binding) : Z :=
  foldr (fun v acc => if decide (binding_POF v = k)
                      then binding_count v + acc else acc)
        0 bindings.

(** The sum of all counts of a binding list. *)
Definition sum_all (bindings : list binding) : Z :=
  foldr (fun v acc => binding_count v + acc) 0 bindings.

(** The largest value of an [int] of 64 bits. *)
Definition MaxInt64 : Z := 9223372036854775807.

(** The patterns of [typed_scope] in the other order. *)
Definition typed_swapped : Scope (list node) :=
  {| current := typed_focus;
     Tps := [typed_other; typed_focus];
     scope := ∅;
     template := None;
     Keyword := EmptyString;
     pathLength := 0;
     Pof := POF |}.

(** A Scope whose only pattern does not mention the focus variable. *)
Definition no_focus : Scope (list node) :=
  {| current := {| S := "?a"; P := "?b"; O := "?c" |};
     Tps := [ {| S := "?a"; P := "?b"; O := "?c" |} ];
     scope := ∅;
     template := None;
     Keyword := EmptyString;
     pathLength := 0;
     Pof := POF |}.

(** ** The loop of trimToScope *)

Lemma grow_unfold_if tps sz sc :
  grow tps sz sc =
  if decide (sz = size sc) then sc else grow tps (size sc) (scan tps sc).
Proof.
  rewrite grow_equation_1.
  destruct (decide (sz = size sc)); simp grow; reflexivity.
Qed.

Lemma grow_run_sound passes tps sz sc r :
  grow_run passes tps sz sc = Some r -> grow tps sz sc = r.
Proof.
  revert sz sc. induction passes as [|n IH]; intros sz sc; simpl;
    rewrite grow_unfold_if; destruct (decide (sz = size sc));
    try congruence.
  apply IH.
Qed.

Lemma index_true sc k : map_index sc k = true <-> sc !! k = Some true.
Proof.
  unfold map_index. destruct (sc !! k) as [[]|]; simpl; split; congruence.
Qed.

Lemma index_dom sc k : all_true sc -> map_index sc k = true <-> k ∈ dom sc.
Proof.
  intros Hall. rewrite index_true, elem_of_dom. split.
  - intros ->. eauto.
  - intros [v Hv]. rewrite Hv. f_equal. eauto.
Qed.

Lemma tp_in_dom sc tp :
  all_true sc ->
  tp_in tp sc = true <-> ∃ u, has_term tp u ∧ u ∈ dom sc.
Proof.
  intros Hall. unfold tp_in, has_term.
  pose proof (index_dom sc (S tp) Hall) as HS.
  pose proof (index_dom sc (P tp) Hall) as HP.
  pose proof (index_dom sc (O tp) Hall) as HO.
  destruct (map_index sc (S tp)); simpl; [naive_solver|].
  destruct (map_index sc (P tp)); simpl; [naive_solver|].
  destruct (map_index sc (O tp)); simpl; [naive_solver|].
  split; [done|]. intros (u & [-> | [-> | ->]] & Hu).
  - by apply HS in Hu.
  - by apply HP in Hu.
  - by apply HO in Hu.
Qed.

Lemma all_true_singleton : all_true {[ POF := true ]}.
Proof.
  intros k v. rewrite lookup_singleton_Some. naive_solver.
Qed.

Lemma all_true_addToScope tp sc : all_true sc -> all_true (addToScope tp sc).
Proof.
  intros Hall k v. unfold addToScope.
  rewrite !lookup_insert_Some. naive_solver.
Qed.

Lemma dom_addToScope tp sc :
  dom (addToScope tp sc) = {[ O tp ]} ∪ ({[ P tp ]} ∪ ({[ S tp ]} ∪ dom sc)).
Proof. unfold addToScope. by rewrite !dom_insert_L. Qed.

Lemma all_true_eq (m1 m2 : gmap string bool) :
  all_true m1 -> all_true m2 -> dom m1 = dom m2 -> m1 = m2.
Proof.
  intros H1 H2 Hdom. apply map_eq. intros k.
  destruct (m1 !! k) as [v1|] eqn:E1, (m2 !! k) as [v2|] eqn:E2.
  - by rewrite (H1 _ _ E1), (H2 _ _ E2).
  - apply not_elem_of_dom in E2. rewrite <- Hdom in E2.
    apply not_elem_of_dom in E2. congruence.
  - apply not_elem_of_dom in E1. rewrite Hdom in E1.
    apply not_elem_of_dom in E1. congruence.
  - done.
Qed.

Lemma all_true_scan tps sc : all_true sc -> all_true (scan tps sc).
Proof.
  revert sc. induction tps as [|tp tps IH]; intros sc Hall; simpl; [done|].
  apply IH. destruct (tp_in tp sc); [by apply all_true_addToScope|done].
Qed.

Lemma scan_incr tps sc : dom sc ⊆ dom (scan tps sc).
Proof.
  revert sc. induction tps as [|tp tps IH]; intros sc; simpl; [done|].
  etrans; [|apply IH]. destruct (tp_in tp sc); [|done].
  rewrite dom_addToScope. set_solver.
Qed.

(** A pass adds only terms that are reachable. *)
Lemma scan_reachable all tps sc :
  (∀ tp, tp ∈ tps -> tp ∈ all) -> all_true sc ->
  (∀ k, k ∈ dom sc -> reachable all k) ->
  ∀ k, k ∈ dom (scan tps sc) -> reachable all k.
Proof.
  revert sc. induction tps as [|tp tps IH]; intros sc Hsub Hall Hsc; [done|].
  simpl. apply IH.
  - intros tp' ?. apply Hsub. by right.
  - destruct (tp_in tp sc); [by apply all_true_addToScope|done].
  - destruct (tp_in tp sc) eqn:Hin; [|done].
    apply tp_in_dom in Hin as (u & Hu & Hdom); [|done].
    assert (∀ t, has_term tp t -> reachable all t) as Hstep.
    { intros t Ht.
      apply (reachable_step all tp u t); [apply Hsub; by left|done|by apply Hsc|done]. }
    intros k. rewrite dom_addToScope, !elem_of_union, !elem_of_singleton.
    unfold has_term in Hstep. naive_solver.
Qed.

(** A pass that adds no key has found the scope closed. *)
Lemma scan_fixed tps sc :
  all_true sc -> dom (scan tps sc) = dom sc ->
  ∀ tp t, tp ∈ tps -> tp_in tp sc = true -> has_term tp t -> t ∈ dom sc.
Proof.
  revert sc. induction tps as [|tp0 tps IH]; intros sc Hall Hfix tp t Htp Hin Ht.
  { by apply elem_of_nil in Htp. }
  simpl in Hfix.
  set (sc1 := if tp_in tp0 sc then addToScope tp0 sc else sc) in *.
  assert (dom sc1 = dom sc) as Hdom1.
  { apply set_eq. intros x. split.
    - intros Hx. rewrite <- Hfix. by apply scan_incr.
    - subst sc1. destruct (tp_in tp0 sc); [|done].
      rewrite dom_addToScope. set_solver. }
  assert (sc1 = sc) as Hsc1.
  { apply all_true_eq; [|done..]. subst sc1.
    destruct (tp_in tp0 sc); [by apply all_true_addToScope|done]. }
  apply elem_of_cons in Htp as [->|Htp].
  - rewrite <- Hdom1. subst sc1. rewrite Hin, dom_addToScope.
    unfold has_term in Ht. set_solver.
  - rewrite Hsc1 in Hfix. by eapply IH.
Qed.

(** The invariant of the outer loop and what its exit adds to it. *)
Lemma grow_invariant all sz sc :
  all_true sc -> POF ∈ dom sc ->
  (∀ k, k ∈ dom sc -> reachable all k) ->
  (sz = size sc ->
   ∀ tp t, tp ∈ all -> tp_in tp sc = true -> has_term tp t -> t ∈ dom sc) ->
  let r := grow all sz sc in
  all_true r ∧ POF ∈ dom r ∧
  (∀ k, k ∈ dom r -> reachable all k) ∧
  (∀ tp t, tp ∈ all -> tp_in tp r = true -> has_term tp t -> t ∈ dom r).
Proof.
  simpl. apply (grow_elim (fun all sz sc r =>
    all_true sc -> POF ∈ dom sc ->
    (∀ k, k ∈ dom sc -> reachable all k) ->
    (sz = size sc ->
     ∀ tp t, tp ∈ all -> tp_in tp sc = true -> has_term tp t -> t ∈ dom sc) ->
    all_true r ∧ POF ∈ dom r ∧
    (∀ k, k ∈ dom r -> reachable all k) ∧
    (∀ tp t, tp ∈ all -> tp_in tp r = true -> has_term tp t -> t ∈ dom r)));
    clear all sz sc.
  - intros all sz sc Hsz _ Hall Hpof Hreach Hexit. eauto.
  - intros all sz sc Hsz IH _ Hall Hpof Hreach _. apply IH.
    + by apply all_true_scan.
    + by apply scan_incr.
    + by apply scan_reachable.
    + intros Hsame tp t Htp Hin Ht.
      assert (dom (scan all sc) = dom sc) as Hdom.
      { symmetry. apply set_subseteq_size_eq; [apply scan_incr|].
        rewrite !size_dom. lia. }
      assert (scan all sc = sc) as Hfix.
      { apply all_true_eq; [by apply all_true_scan|done..]. }
      rewrite Hfix in Hin. rewrite Hdom.
      by apply (scan_fixed all sc Hall Hdom tp t).
Qed.

(** The scope that [trimToScope] computes is the reachability set. *)
Lemma grow_reachable tps :
  let sc := grow tps 0%nat {[ POF := true ]} in
  all_true sc ∧ ∀ t, t ∈ dom sc <-> reachable tps t.
Proof.
  destruct (grow_invariant tps 0%nat {[ POF := true ]})
    as (Hall & Hpof & Hsound & Hclosed).
  - apply all_true_singleton.
  - set_solver.
  - intros k. rewrite dom_singleton_L, elem_of_singleton. intros ->.
    constructor.
  - rewrite map_size_singleton. lia.
  - simpl. split; [done|]. intros t. split; [apply Hsound|].
    induction 1 as [|tp u t Htp Hu _ IH Ht]; [done|].
    eapply Hclosed; [done| |done]. apply tp_in_dom; eauto.
Qed.

(** The inductive set [reachable] is the least fixed point of one pass:
    it holds the focus variable, no pass extends it, and every set with
    these two properties includes it. *)
Lemma reachable_least tps :
  reachable tps POF ∧ closed tps (reachable tps) ∧
  ∀ X : string -> Prop, X POF -> closed tps X -> ∀ t, reachable tps t -> X t.
Proof.
  split; [constructor|]. split.
  - intros tp u t Htp Hu Hr Ht. by apply (reachable_step tps tp u t).
  - intros X Hpof Hclosed t. induction 1 as [|tp u t Htp Hu _ IH Ht]; [done|].
    by apply (Hclosed tp u t).
Qed.

Lemma reachable_mono tps1 tps2 t :
  (∀ tp, tp ∈ tps1 -> tp ∈ tps2) -> reachable tps1 t -> reachable tps2 t.
Proof.
  intros Hsub. induction 1 as [|tp u t Htp Hu _ IH Ht]; [constructor|].
  apply (reachable_step tps2 tp u t); auto.
Qed.

Lemma tp_in_connected tps tp :
  tp_in tp (grow tps 0%nat {[ POF := true ]}) = true <-> connected tps tp.
Proof.
  destruct (grow_reachable tps) as [Hall Hdom]. rewrite tp_in_dom by done.
  unfold connected. split; intros (u & Hu & Hr); exists u; (split; [exact Hu|]).
  - exact (proj1 (Hdom u) Hr).
  - exact (proj2 (Hdom u) Hr).
Qed.

(** Dropping the patterns that are not connected leaves the reachability
    set as it is. *)
Lemma reachable_kept tps t :
  reachable (filter (fun tp => tp_in tp (grow tps 0%nat {[ POF := true ]}) = true)
                    tps) t
  <-> reachable tps t.
Proof.
  split.
  - apply reachable_mono. intros tp Htp. by apply list_elem_of_filter in Htp as [_ ?].
  - induction 1 as [|tp u t Htp Hu Hr IH Ht]; [constructor|].
    apply (reachable_step _ tp u t); [|done..].
    apply list_elem_of_filter. split; [|done].
    apply tp_in_connected. by exists u.
Qed.

Lemma filter_twice (keep : triplePattern -> bool) (tps : list triplePattern) :
  filter (fun tp => keep tp = true) (filter (fun tp => keep tp = true) tps)
  = filter (fun tp => keep tp = true) tps.
Proof.
  induction tps as [|tp tps IH]; [reflexivity|].
  rewrite filter_cons. destruct (decide (keep tp = true)) as [Hin|Hout].
  - rewrite filter_cons, decide_True by exact Hin. f_equal. exact IH.
  - exact IH.
Qed.

(** Trimming a trimmed Scope changes nothing, the scope map included. *)
Lemma trimToScope_fixed {Template} (b : Scope Template) :
  trimToScope (trimToScope b) = trimToScope b.
Proof.
  unfold trimToScope. simpl.
  set (sc := grow (Tps b) 0%nat {[ POF := true ]}).
  set (kept := filter (fun tp => tp_in tp sc = true) (Tps b)).
  assert (grow kept 0%nat {[ POF := true ]} = sc) as ->.
  { destruct (grow_reachable kept) as [Hall' Hdom'].
    destruct (grow_reachable (Tps b)) as [Hall Hdom].
    apply all_true_eq; [done..|]. apply set_eq. intros t.
    rewrite Hdom'. fold sc in Hdom. rewrite Hdom. apply reachable_kept. }
  f_equal. subst kept. clearbody sc. apply filter_twice.
Qed.

(** Evaluating [trimToScope] on given patterns, through [grow_run]. *)
Lemma trimToScope_run {Template} passes (b : Scope Template) sc :
  grow_run passes (Tps b) 0%nat {[ POF := true ]} = Some sc ->
  trimToScope b =
  {| current := current b;
     Tps := filter (fun tp => tp_in tp sc = true) (Tps b);
     scope := sc;
     template := template b;
     Keyword := Keyword b;
     pathLength := pathLength b;
     Pof := Pof b |}.
Proof. intros Hrun. unfold trimToScope. by rewrite (grow_run_sound _ _ _ _ _ Hrun). Qed.

(** C3.  [trimToScope] leaves in the scope map exactly the terms of the
    reachability set seeded with the focus variable, the least fixed point
    of [reachable_least]; it keeps the patterns with a term in that set,
    each as often as it occurs and in the order of the input, and drops the
    patterns with no term in it. *)
Theorem trimToScope_keeps_connected {Template} (b : Scope Template) :
  let sc := scope (trimToScope b) in
  let kept := Tps (trimToScope b) in
  (∀ t, map_index sc t = true <-> reachable (Tps b) t) ∧
  (∀ tp, tp_in tp sc = true <-> connected (Tps b) tp) ∧
  kept = filter (fun tp => tp_in tp sc = true) (Tps b) ∧
  (∀ tp, tp ∈ kept <-> tp ∈ Tps b ∧ connected (Tps b) tp) ∧
  (∀ tp, tp ∈ Tps b -> ¬ connected (Tps b) tp -> tp ∉ kept) ∧
  sublist kept (Tps b).
Proof.
  simpl. destruct (grow_reachable (Tps b)) as [Hall Hdom].
  split; [|split; [|split; [|split; [|split]]]].
  - intros t. rewrite index_dom by done. apply Hdom.
  - intros tp. apply tp_in_connected.
  - reflexivity.
  - intros tp. rewrite list_elem_of_filter, tp_in_connected. tauto.
  - intros tp _ Hnot Hkept. apply list_elem_of_filter in Hkept as [Hin _].
    by apply Hnot, tp_in_connected.
  - apply sublist_filter.
Qed.

(** C6.  [trimToScope] is idempotent: a second application leaves the
    pattern list of the first. *)
Theorem trimToScope_idempotent {Template} (b : Scope Template) :
  Tps (trimToScope (trimToScope b)) = Tps (trimToScope b).
Proof. by rewrite trimToScope_fixed. Qed.

(** C8.  A constant connects patterns as a variable does: of two patterns
    whose only common term is the constant [a], the one without the focus
    variable is kept by the trimming, next to the one with it. *)
Theorem trimToScope_constant_connects :
  ∃ b : Scope (list node),
    Tps b = [typed_focus; typed_other] ∧
    has_term typed_focus POF ∧
    ¬ has_term typed_other POF ∧
    (∀ t, has_term typed_focus t -> has_term typed_other t ->
          t = "a" ∧ is_variable t = false) ∧
    typed_other ∈ Tps (trimToScope b) ∧
    Tps (trimToScope b) = [typed_focus; typed_other].
Proof.
  exists typed_scope.
  assert (∃ sc, grow_run 3 (Tps typed_scope) 0%nat {[ POF := true ]} = Some sc
                ∧ filter (fun tp => tp_in tp sc = true) (Tps typed_scope)
                  = [typed_focus; typed_other]) as (sc & Hrun & Hkept).
  { eexists. split; vm_compute; reflexivity. }
  rewrite (trimToScope_run 3 typed_scope sc Hrun).
  cbn [Tps]. rewrite Hkept.
  split; [reflexivity|]. split; [by right; right|].
  split; [intros [H | [H | H]]; discriminate H|].
  split; [|split; [by right; left|reflexivity]].
  clear Hrun Hkept. intros t [-> | [-> | ->]] [H | [H | H]]; try discriminate H.
  split; reflexivity.
Qed.

(** ** Reset and classification *)

(** C7.  After [Reset] the pattern list is empty, the keyword is the empty
    string, the path length is zero and the projection is the focus
    variable again. *)
Theorem Reset_clears {Template} (b : Scope Template) :
  Tps (Reset b) = [] ∧
  Keyword (Reset b) = EmptyString ∧
  pathLength (Reset b) = 0 ∧
  Pof (Reset b) = "?POF".
Proof. repeat split. Qed.

Lemma typeOf_rule tps : typeOf tps = default NONE (head (omap rule tps)).
Proof.
  induction tps as [|tp tps IH]; [reflexivity|].
  simpl. unfold rule, POF.
  repeat (case_decide; [reflexivity|]). exact IH.
Qed.

Lemma typeOf_first before tp after ty :
  Forall (fun t => rule t = None) before -> rule tp = Some ty ->
  typeOf (before ++ tp :: after) = ty.
Proof.
  intros Hbefore Htp. rewrite typeOf_rule.
  induction Hbefore as [|t before Ht _ IH]; simpl.
  - by rewrite Htp.
  - by rewrite Ht.
Qed.

Lemma typeOf_none tps :
  Forall (fun t => rule t = None) tps -> typeOf tps = NONE.
Proof.
  intros Hnone. rewrite typeOf_rule.
  induction Hnone as [|t tps Ht _ IH]; simpl; [reflexivity|]. by rewrite Ht.
Qed.

(** C4.  [RecommendationType] is [PATH] whenever the path length is not
    zero; otherwise it is what the rules, tried in the order PREDICATE,
    CLASS, OBJECT, SUBJECT, give on the first pattern that matches one of
    them, and [NONE] when no pattern matches. *)
Theorem RecommendationType_classify {Template} (b : Scope Template) :
  RecommendationType b = classify (pathLength b) (Tps b) ∧
  (pathLength b ≠ 0 -> RecommendationType b = PATH) ∧
  (∀ before tp after ty,
     pathLength b = 0 -> Tps b = before ++ tp :: after ->
     Forall (fun t => rule t = None) before -> rule tp = Some ty ->
     RecommendationType b = ty) ∧
  (pathLength b = 0 -> Forall (fun t => rule t = None) (Tps b) ->
   RecommendationType b = NONE).
Proof.
  unfold RecommendationType, classify. split; [|split; [|split]].
  - case_decide; [reflexivity|]. apply typeOf_rule.
  - intros Hpath. by rewrite decide_True.
  - intros before tp after ty Hzero -> Hbefore Htp.
    rewrite decide_False by (intros Hne; by apply Hne).
    by apply typeOf_first.
  - intros Hzero Hnone. rewrite decide_False by (intros Hne; by apply Hne).
    by apply typeOf_none.
Qed.

Lemma RecommendationType_classify_witness :
  RecommendationType class_focus = CLASS ∧
  RecommendationType three_hops = PATH.
Proof.
  destruct (RecommendationType_classify class_focus) as (_ & _ & Hfirst & _).
  destruct (RecommendationType_classify three_hops) as (_ & Hpath & _).
  split.
  - apply (Hfirst [] {| S := "?s"; P := "a"; O := "?POF" |} [] CLASS);
      [reflexivity|reflexivity|constructor|reflexivity].
  - apply Hpath. discriminate.
Defined.

(** ** Path expansion *)

Lemma append_assoc (s1 s2 s3 : string) :
  (s1 +:+ s2) +:+ s3 = s1 +:+ (s2 +:+ s3).
Proof.
  induction s1 as [|c s1 IH]; [reflexivity|].
  change (String c ((s1 +:+ s2) +:+ s3) = String c (s1 +:+ (s2 +:+ s3))).
  by rewrite IH.
Qed.

Lemma append_empty_r (s : string) : s +:+ EmptyString = s.
Proof.
  induction s as [|c s IH]; [reflexivity|].
  change (String c (s +:+ EmptyString) = String c s). by rewrite IH.
Qed.

(** What the loop of [pathPof] appends for the hops [i], ..., [i + n - 1]. *)
Lemma pathPof_loop_hops pathLength n i pof :
  1 <= i -> i + Z.of_nat n = pathLength + 1 ->
  pathPof_loop pathLength n i pof =
  pof +:+ (if decide (i > 1)
           then if decide (n = 0%nat) then EmptyString else ", "
           else EmptyString)
      +:+ String.concat hop_separator (hop <$> seqZ i (Z.of_nat n)).
Proof.
  revert i pof. induction n as [|n IH]; intros i pof Hi Hlen.
  { simpl. repeat case_decide; by rewrite ?append_empty_r. }
  cbn [pathPof_loop]. rewrite IH by lia.
  rewrite (seqZ_cons i) by lia.
  replace (Z.pred (Z.of_nat (Datatypes.S n))) with (Z.of_nat n) by lia.
  replace (Z.succ i) with (i + 1) by lia.
  rewrite fmap_cons. rewrite (decide_True (P := i + 1 > 1)) by lia.
  rewrite (decide_False (P := Datatypes.S n = 0%nat)) by lia.
  destruct n as [|n].
  - rewrite (decide_False (P := i < pathLength)) by lia.
    rewrite (decide_True (P := 0%nat = 0%nat)) by done.
    simpl. fold (hop i).
    destruct (decide (i > 1)); rewrite !append_empty_r, ?append_assoc; reflexivity.
  - rewrite (decide_True (P := i < pathLength)) by lia.
    rewrite (decide_False (P := Datatypes.S n = 0%nat)) by lia.
    rewrite (seqZ_cons (i + 1)) by lia. rewrite fmap_cons.
    cbn [String.concat]. unfold hop_separator. fold (hop i).
    destruct (decide (i > 1)); rewrite ?append_assoc; reflexivity.
Qed.

Lemma pathPof_expression n : pathPof n = path_expression n.
Proof.
  unfold pathPof, path_expression.
  destruct (decide (n <= 0)) as [Hn|Hn].
  - replace (Z.to_nat n) with 0%nat by lia. rewrite seqZ_nil by done.
    reflexivity.
  - rewrite pathPof_loop_hops by lia.
    rewrite (decide_False (P := 1 > 1)) by lia.
    rewrite Z2Nat.id by lia. rewrite append_assoc. reflexivity.
Qed.

Lemma intermediate_ok tp n i inter tps :
  n = 0%nat ∨ (S tp ≠ EmptyString ∧ O tp ≠ EmptyString) ->
  ∃ r, intermediate tp n i inter tps = Ok r.
Proof.
  revert i inter tps. induction n as [|n IH]; intros i inter tps Hne.
  { eexists. reflexivity. }
  destruct Hne as [?|[HS HO]]; [done|]. simpl.
  destruct (S tp) as [|c s]; [done|]. destruct (O tp) as [|c' o]; [done|].
  simpl. apply IH. right. split; discriminate.
Qed.

(** C5, as amended.  When the path length is above zero and a pattern has
    the focus variable as its predicate, and either the length is one or
    the first such pattern has a subject and an object that are not empty,
    [addIntermediatePath] returns and leaves as projection the hops
    [?POF1], ..., [?POFn] in hop order, each between the pieces ["<"] and
    [">"], joined by [" / "]. *)
Theorem addIntermediatePath_Pof {Template} (b : Scope Template) ind tp :
  pathLength b > 0 ->
  list_find (fun tp => P tp = POF) (Tps b) = Some (ind, tp) ->
  pathLength b = 1 ∨ (S tp ≠ EmptyString ∧ O tp ≠ EmptyString) ->
  ∃ b', addIntermediatePath b = Ok b' ∧
        Pof b' = path_expression (pathLength b).
Proof.
  intros Hpos Hfind Hne. unfold addIntermediatePath.
  rewrite decide_False by lia. rewrite Hfind.
  destruct (intermediate_ok tp (Z.to_nat (pathLength b - 1)) 1 (S tp) (Tps b))
    as [r Hr].
  { destruct Hne as [->|?]; [by left|by right]. }
  rewrite Hr. simpl. eexists. split; [reflexivity|]. simpl.
  apply pathPof_expression.
Qed.

Lemma addIntermediatePath_Pof_witness :
  ∃ b', addIntermediatePath three_hops = Ok b' ∧
        Pof b' = path_expression 3.
Proof.
  apply (addIntermediatePath_Pof three_hops 0%nat
           {| S := "?s"; P := "?POF"; O := "?FillVar" |}).
  - reflexivity.
  - reflexivity.
  - right. split; discriminate.
Defined.

(** The claim C5 as it is stated fails on a pattern whose subject is the
    empty string: the slice [tp.S[1:]] of the first intermediate hop is out
    of range. *)
Lemma addIntermediatePath_no_subject :
  pathLength no_subject = 2 ∧
  (∃ tp, tp ∈ Tps no_subject ∧ P tp = POF) ∧
  addIntermediatePath no_subject = Panic ∧
  ¬ (∀ b : Scope (list node),
       pathLength b > 0 -> (∃ tp, tp ∈ Tps b ∧ P tp = POF) ->
       ∃ b', addIntermediatePath b = Ok b' ∧
             Pof b' = path_expression (pathLength b)).
Proof.
  assert (∃ tp, tp ∈ Tps no_subject ∧ P tp = POF) as Hpof.
  { eexists. split; [apply list_elem_of_here|reflexivity]. }
  split; [reflexivity|]. split; [exact Hpof|]. split; [reflexivity|].
  intros Hclaim. destruct (Hclaim no_subject) as (b' & Hb' & _).
  - reflexivity.
  - exact Hpof.
  - discriminate Hb'.
Qed.

(** ** Rendering *)

(** Evaluating [RecommendationQuery] on given patterns, through [grow_run]. *)
Lemma RecommendationQuery_run {Template} passes
  (Execute : Template -> Scope Template -> string) (b : Scope Template) sc :
  grow_run passes (Tps b) 0%nat {[ POF := true ]} = Some sc ->
  RecommendationQuery Execute b =
  (b' ← addIntermediatePath
          {| current := current b;
             Tps := filter (fun tp => tp_in tp sc = true) (Tps b);
             scope := sc;
             template := template b;
             Keyword := Keyword b;
             pathLength := pathLength b;
             Pof := Pof b |};
   match template b' with
   | None => Panic
   | Some t => Ok (Execute t b', b')
   end).
Proof.
  intros Hrun. unfold RecommendationQuery.
  by rewrite (trimToScope_run passes b sc Hrun).
Qed.

(** Path expansion leaves alone a Scope whose path length is zero or that
    has no pattern with the focus variable as predicate. *)
Lemma addIntermediatePath_idle {Template} (b : Scope Template) :
  pathLength b = 0 ∨ (∀ tp, tp ∈ Tps b -> P tp ≠ POF) ->
  addIntermediatePath b = Ok b.
Proof.
  intros [Hzero|Hnone]; unfold addIntermediatePath.
  - by rewrite decide_True.
  - case_decide; [done|].
    destruct (list_find _ (Tps b)) as [[ind tp]|] eqn:Hfind; [|done].
    apply list_find_Some in Hfind as (Hlook & HP & _).
    apply list_elem_of_lookup_2 in Hlook. by apply Hnone in Hlook.
Qed.

(** C2, as amended.  When path expansion has nothing to do (the path length
    is zero, or no pattern has the focus variable as its predicate), a
    second call of [RecommendationQuery], on the Scope as the first call
    left it, returns the text of the first call. *)
Theorem RecommendationQuery_twice {Template}
  (Execute : Template -> Scope Template -> string) (b b1 : Scope Template) q :
  pathLength b = 0 ∨ (∀ tp, tp ∈ Tps b -> P tp ≠ POF) ->
  RecommendationQuery Execute b = Ok (q, b1) ->
  RecommendationQuery Execute b1 = Ok (q, b1).
Proof.
  intros Hidle Hfirst.
  assert (pathLength (trimToScope b) = 0
          ∨ (∀ tp, tp ∈ Tps (trimToScope b) -> P tp ≠ POF)) as Hidle'.
  { destruct Hidle as [?|Hnone]; [by left|right].
    intros tp Htp. apply Hnone.
    by apply list_elem_of_filter in Htp as [_ ?]. }
  unfold RecommendationQuery in Hfirst.
  rewrite (addIntermediatePath_idle _ Hidle') in Hfirst. simpl in Hfirst.
  destruct (template b) as [t|] eqn:Ht; [|discriminate Hfirst].
  injection Hfirst as Hq Hb1.
  unfold RecommendationQuery. rewrite <- Hb1 at 1.
  rewrite trimToScope_fixed, (addIntermediatePath_idle _ Hidle'). simpl.
  rewrite Ht, Hq, Hb1. reflexivity.
Qed.

Lemma RecommendationQuery_twice_witness :
  ∃ q b1,
    RecommendationQuery exec_template class_focus = Ok (q, b1) ∧
    RecommendationQuery exec_template b1 = Ok (q, b1).
Proof.
  assert (∃ q b1, RecommendationQuery exec_template class_focus = Ok (q, b1))
    as (q & b1 & Hfirst).
  { eexists. eexists.
    erewrite (RecommendationQuery_run 3); [|vm_compute; reflexivity].
    vm_compute. reflexivity. }
  exists q, b1. split; [exact Hfirst|].
  apply (RecommendationQuery_twice exec_template class_focus b1 q).
  - left. reflexivity.
  - exact Hfirst.
Defined.

(** The claim C2 as it is stated fails when path expansion rewrites the
    focus pattern: its predicate is then [?POF1], the second trimming finds
    no term of it in the set seeded with [?POF], and the second text has no
    pattern. *)
Lemma RecommendationQuery_twice_differs :
  ∃ q1 b1 q2 b2,
    RecommendationQuery exec_template one_hop = Ok (q1, b1) ∧
    RecommendationQuery exec_template b1 = Ok (q2, b2) ∧
    Tps b1 = [ {| S := "?s"; P := "?POF1"; O := "?FillVar" |} ] ∧
    Tps b2 = [] ∧
    q2 ≠ q1.
Proof.
  eexists. eexists. eexists. eexists.
  split.
  { erewrite (RecommendationQuery_run 3); [|vm_compute; reflexivity].
    vm_compute. reflexivity. }
  split.
  { erewrite (RecommendationQuery_run 3); [|vm_compute; reflexivity].
    vm_compute. reflexivity. }
  split; [reflexivity|]. split; [reflexivity|].
  intros Heq. apply (f_equal String.length) in Heq.
  vm_compute in Heq. discriminate Heq.
Qed.

(** C9.  [NewScopeWithTemplate] has no error among its results: for every
    template text it returns a Scope whose projection is the focus
    variable.  When the text does not parse, the template of that Scope is
    nil, and [RecommendationQuery] panics on it, and on every Scope whose
    template is nil. *)
Theorem NewScopeWithTemplate_drops_error {Template}
  (Parse : string -> option Template)
  (Execute : Template -> Scope Template -> string) (tmpl : string) :
  Pof (NewScopeWithTemplate Parse tmpl) = "?POF" ∧
  (Parse tmpl = None ->
   template (NewScopeWithTemplate Parse tmpl) = None ∧
   RecommendationQuery Execute (NewScopeWithTemplate Parse tmpl) = Panic ∧
   ∀ b : Scope Template,
     template b = None -> RecommendationQuery Execute b = Panic).
Proof.
  split; [reflexivity|]. intros Hfail.
  assert (∀ b : Scope Template,
            template b = None -> RecommendationQuery Execute b = Panic) as Hnil.
  { intros b Hb. unfold RecommendationQuery.
    destruct (addIntermediatePath (trimToScope b)) as [b'|] eqn:Hpath;
      [|reflexivity].
    simpl. replace (template b') with (@None Template); [reflexivity|].
    unfold addIntermediatePath in Hpath. repeat case_match; simplify_eq;
      try done.
    all: destruct (intermediate _ _ _ _ _); simplify_eq/=; done. }
  split; [exact Hfail|]. split; [|exact Hnil]. apply Hnil. exact Hfail.
Qed.

Lemma NewScopeWithTemplate_drops_error_witness :
  parse_actions unclosed_action = None ∧
  template (NewScopeWithTemplate parse_actions unclosed_action) = None ∧
  RecommendationQuery exec_template
    (NewScopeWithTemplate parse_actions unclosed_action) = Panic.
Proof.
  assert (parse_actions unclosed_action = None) as Hfail by reflexivity.
  split; [exact Hfail|].
  destruct (proj2 (NewScopeWithTemplate_drops_error
                     parse_actions exec_template unclosed_action) Hfail)
    as (Hnil & Hpanic & _).
  split; [exact Hnil|exact Hpanic].
Defined.

(** ** The popularity ranker *)

Lemma Measure_foldl (l : list Z) (mn mx : Z) :
  foldl (fun mm c =>
           let min := if decide (c < mm.1) then c else mm.1 in
           let max := if decide (c > mm.2) then c else mm.2 in
           (min, max))
        (mn, mx) l
  = (foldl Z.min mn l, foldl Z.max mx l).
Proof.
  revert mn mx. induction l as [|c l IH]; intros mn mx; [reflexivity|].
  cbn [foldl fst snd]. rewrite IH. f_equal; f_equal; case_decide; lia.
Qed.

Lemma foldl_min_spec (l : list Z) (m : Z) :
  foldl Z.min m l <= m ∧
  (∀ c, c ∈ l -> foldl Z.min m l <= c) ∧
  (foldl Z.min m l = m ∨ foldl Z.min m l ∈ l).
Proof.
  revert m. induction l as [|c l IH]; intros m; simpl.
  { split; [lia|]. split; [|by left]. intros c Hc. by apply elem_of_nil in Hc. }
  destruct (IH (Z.min m c)) as (Hle & Hall & Hin).
  split; [lia|]. split.
  - intros c' [->|Hc']%elem_of_cons; [lia|by apply Hall].
  - destruct Hin as [Heq|Hin]; [|right; by right].
    rewrite Heq. destruct (Z.min_spec m c) as [[_ ->]|[_ ->]];
      [by left|right; by left].
Qed.

Lemma foldl_max_spec (l : list Z) (m : Z) :
  m <= foldl Z.max m l ∧
  (∀ c, c ∈ l -> c <= foldl Z.max m l) ∧
  (foldl Z.max m l = m ∨ foldl Z.max m l ∈ l).
Proof.
  revert m. induction l as [|c l IH]; intros m; simpl.
  { split; [lia|]. split; [|by left]. intros c Hc. by apply elem_of_nil in Hc. }
  destruct (IH (Z.max m c)) as (Hle & Hall & Hin).
  split; [lia|]. split.
  - intros c' [->|Hc']%elem_of_cons; [lia|by apply Hall].
  - destruct Hin as [Heq|Hin]; [|right; by right].
    rewrite Heq. destruct (Z.max_spec m c) as [[_ ->]|[_ ->]];
      [right; by left|by left].
Qed.

(** C10, as amended.  On the empty list [Measure] returns the minimum
    [2147483647] and the maximum [0], and the minimum is above the maximum
    on the empty list only.  On a list that has a count of at most
    [2147483647] its minimum is the least count, and on a list that has a
    count of at least [0] its maximum is the greatest count; neither of the
    two needs the other. *)
Theorem Measure_min_max (pofs : list Z) :
  Measure [] = (MaxInt32, 0) ∧
  ((Measure pofs).1 > (Measure pofs).2 <-> pofs = []) ∧
  ((∃ c, c ∈ pofs ∧ c <= MaxInt32) -> is_minimum (Measure pofs).1 pofs) ∧
  ((∃ c, c ∈ pofs ∧ 0 <= c) -> is_maximum (Measure pofs).2 pofs).
Proof.
  split; [reflexivity|]. unfold Measure. rewrite Measure_foldl. simpl.
  destruct (foldl_min_spec pofs MaxInt32) as (Hmin_le & Hmin & Hmin_in).
  destruct (foldl_max_spec pofs 0) as (Hmax_le & Hmax & Hmax_in).
  split; [|split].
  - split.
    + intros Habove. destruct pofs as [|c pofs]; [reflexivity|]. exfalso.
      assert (c ∈ c :: pofs) as Hc by apply list_elem_of_here.
      specialize (Hmin c Hc). specialize (Hmax c Hc). lia.
    + intros ->. simpl. unfold MaxInt32. lia.
  - intros (c & Hc & Hlow). split; [|exact Hmin].
    destruct Hmin_in as [Heq|Hin]; [|exact Hin].
    specialize (Hmin c Hc).
    assert (c = foldl Z.min MaxInt32 pofs) as <- by lia. exact Hc.
  - intros (c & Hc & Hhigh). split; [|exact Hmax].
    destruct Hmax_in as [Heq|Hin]; [|exact Hin].
    specialize (Hmax c Hc).
    assert (c = foldl Z.max 0 pofs) as <- by lia. exact Hc.
Qed.

Lemma Measure_min_max_witness :
  Measure [] = (MaxInt32, 0) ∧
  (Measure []).1 > (Measure []).2 ∧
  is_minimum (Measure [3; 1; 2]).1 [3; 1; 2] ∧
  is_maximum (Measure [3; 1; 2]).2 [3; 1; 2] ∧
  is_minimum (Measure [-1]).1 [-1] ∧
  is_maximum (Measure [3000000000]).2 [3000000000].
Proof.
  destruct (Measure_min_max []) as (Hempty & Habove & _ & _).
  destruct (Measure_min_max [3; 1; 2]) as (_ & _ & Hmin & Hmax).
  destruct (Measure_min_max [-1]) as (_ & _ & Hmin' & _).
  destruct (Measure_min_max [3000000000]) as (_ & _ & _ & Hmax').
  split; [exact Hempty|]. split; [apply Habove; reflexivity|].
  split; [|split; [|split]].
  - apply Hmin. exists 3. split; [apply list_elem_of_here|]. unfold MaxInt32. lia.
  - apply Hmax. exists 3. split; [apply list_elem_of_here|]. lia.
  - apply Hmin'. exists (-1). split; [apply list_elem_of_here|].
    unfold MaxInt32. lia.
  - apply Hmax'. exists 3000000000. split; [apply list_elem_of_here|]. lia.
Defined.

(** The claim C10 as it is stated fails on a list whose counts are all
    above [2147483647], where the minimum that is returned is no count of
    the list, and on a list whose counts are all below [0], where the
    maximum that is returned is none. *)
Lemma Measure_out_of_range :
  Measure [3000000000] = (2147483647, 3000000000) ∧
  ¬ is_minimum (Measure [3000000000]).1 [3000000000] ∧
  Measure [-1] = (-1, 0) ∧
  ¬ is_maximum (Measure [-1]).2 [-1].
Proof.
  split; [reflexivity|]. split.
  { intros [Hin _]. apply list_elem_of_singleton in Hin. discriminate Hin. }
  split; [reflexivity|].
  intros [Hin _]. apply list_elem_of_singleton in Hin. discriminate Hin.
Qed.

Lemma topOf_take (ranged : list (string * Z)) :
  topOf ranged =
  take 10 ((fun kv => {| item := kv.1; count := kv.2 |}) <$> ranged).
Proof.
  unfold topOf.
  assert (∀ acc : ByCount,
            foldl (fun pofs kv =>
                     pofs ++ [ {| item := kv.1; count := kv.2 |} ])
                  acc ranged
            = acc ++ ((fun kv => {| item := kv.1; count := kv.2 |}) <$> ranged))
    as Hfold.
  { induction ranged as [|kv ranged IH]; intros acc; simpl.
    - by rewrite app_nil_r.
    - rewrite IH, <- app_assoc. reflexivity. }
  rewrite Hfold. simpl. unfold Len.
  set (pofs := (fun kv => {| item := kv.1; count := kv.2 |}) <$> ranged).
  destruct (decide (10 <= Z.of_nat (length pofs))) as [Hlong|Hshort].
  - rewrite Z.min_l by done. reflexivity.
  - rewrite Z.min_r by lia. rewrite Nat2Z.id.
    rewrite !take_ge by lia. reflexivity.
Qed.

(** C1, on the code.  The ranking step sorts nothing: whatever order the
    range over the count map yields, the candidates of the second query
    are the first ten of it.  For the two candidates of [two], yielded in
    the order of their bindings, the ranking is ascending.  For the eleven
    candidates of [eleven], yielded in the order of their bindings, the
    candidates of the second query are the ten with the least counts: the
    candidate with the greatest count is left out. *)
Theorem topOf_not_sorted :
  (∀ ranged, topOf ranged =
             take 10 ((fun kv => {| item := kv.1; count := kv.2 |}) <$> ranged)) ∧
  (list_to_map two_ranged = countsOf two ∧
   NoDup (two_ranged.*1) ∧
   topOf two_ranged = [ {| item := "a"; count := 1 |};
                        {| item := "b"; count := 2 |} ] ∧
   valuesOf (topOf two_ranged) = "values ?POF { <a> <b> }" ∧
   ¬ descending (topOf two_ranged)) ∧
  (list_to_map eleven_ranged = countsOf eleven ∧
   NoDup (eleven_ranged.*1) ∧
   valuesOf (topOf eleven_ranged)
   = "values ?POF { <a> <b> <c> <d> <e> <f> <g> <h> <i> <j> }" ∧
   ({| item := "k"; count := 11 |} ∉ topOf eleven_ranged) ∧
   ({| item := "a"; count := 1 |} ∈ topOf eleven_ranged) ∧
   ¬ descending (topOf eleven_ranged)).
Proof.
  assert (∀ ranged, topOf ranged !! 0%nat = Some {| item := "a"; count := 1 |} ->
                    topOf ranged !! 1%nat = Some {| item := "b"; count := 2 |} ->
                    ¬ descending (topOf ranged)) as Hascending.
  { intros ranged H0 H1 Hdesc.
    specialize (Hdesc 0%nat 1%nat _ _ (Nat.lt_0_1) H0 H1). simpl in Hdesc. lia. }
  split; [exact topOf_take|]. split.
  - split; [vm_compute; reflexivity|].
    split; [apply (bool_decide_unpack _); vm_compute; exact I|].
    split; [reflexivity|]. split; [vm_compute; reflexivity|].
    by apply Hascending.
  - split; [vm_compute; reflexivity|].
    split; [apply (bool_decide_unpack _); vm_compute; exact I|].
    split; [vm_compute; reflexivity|].
    split; [apply (bool_decide_unpack _); vm_compute; exact I|].
    split; [apply (bool_decide_unpack _); vm_compute; exact I|].
    by apply Hascending.
Qed.

(** ** Scenarios of the test suite *)

(** [?a ?b ?c . ?s <]: the pattern of the other component is dropped. *)
Example trimToScope_two_components :
  Tps (trimToScope two_components)
  = [ {| S := "?s"; P := "?POF"; O := "?FillVar" |} ]
  ∧ RecommendationType (trimToScope two_components) = PREDICATE.
Proof.
  assert (∃ sc, grow_run 3 (Tps two_components) 0%nat {[ POF := true ]} = Some sc
                ∧ filter (fun tp => tp_in tp sc = true) (Tps two_components)
                  = [ {| S := "?s"; P := "?POF"; O := "?FillVar" |} ])
    as (sc & Hrun & Hkept).
  { eexists. split; vm_compute; reflexivity. }
  rewrite (trimToScope_run 3 two_components sc Hrun).
  unfold RecommendationType. cbn [Tps pathLength]. rewrite Hkept.
  split; reflexivity.
Qed.

(** [?s 3/<]: the three hops, the last one in the place of the focus
    pattern, and their projection. *)
Example addIntermediatePath_three_hops :
  ∃ b, addIntermediatePath three_hops = Ok b ∧
       Tps b = [ {| S := "?sFillVar2"; P := "?POF3"; O := "?FillVar" |};
                 {| S := "?s"; P := "?POF1"; O := "?sFillVar1" |};
                 {| S := "?sFillVar1"; P := "?POF2"; O := "?sFillVar2" |} ] ∧
       Pof b = "(concat(" +:+ dquote +:+ "<" +:+ dquote +:+ ", ?POF1, "
               +:+ dquote +:+ ">" +:+ dquote +:+ ", " +:+ dquote +:+ " / "
               +:+ dquote +:+ ", " +:+ dquote +:+ "<" +:+ dquote
               +:+ ", ?POF2, " +:+ dquote +:+ ">" +:+ dquote +:+ ", "
               +:+ dquote +:+ " / " +:+ dquote +:+ ", " +:+ dquote +:+ "<"
               +:+ dquote +:+ ", ?POF3, " +:+ dquote +:+ ">" +:+ dquote
               +:+ ") as ?POF)" ∧
       RecommendationType b = PATH.
Proof. eexists. repeat split; vm_compute; reflexivity. Qed.

(** [?s a <] with the template of [NewScope]: the text of the query. *)
Example RecommendationQuery_class_focus :
  ∃ b, RecommendationQuery exec_template class_focus
       = Ok (nl +:+
             "        SELECT DISTINCT ?POF" +:+ nl +:+
             "        WHERE {" +:+ nl +:+
             "        " +:+ nl +:+
             "            ?s a ?POF ." +:+ nl +:+
             "        " +:+ nl +:+
             "        " +:+ nl +:+
             "        }" +:+ nl +:+
             "        LIMIT 10" +:+ nl +:+
             "    ", b).
Proof.
  eexists. erewrite (RecommendationQuery_run 3); [|vm_compute; reflexivity].
  vm_compute. reflexivity.
Qed.

(** ** More on trimming *)

Lemma has_term_POF_connected tps tp : has_term tp POF -> connected tps tp.
Proof. intros Hpof. exists POF. split; [exact Hpof|constructor]. Qed.

(** X1.  [trimToScope] keeps every pattern that has the focus variable as
    its subject, its predicate or its object. *)
Theorem trimToScope_keeps_focus {Template} (b : Scope Template) tp :
  tp ∈ Tps b -> has_term tp POF -> tp ∈ Tps (trimToScope b).
Proof.
  intros Htp Hpof. unfold trimToScope. cbn [Tps].
  apply list_elem_of_filter. split; [|exact Htp].
  apply tp_in_connected. by apply has_term_POF_connected.
Qed.

Lemma trimToScope_keeps_focus_witness :
  typed_focus ∈ Tps (trimToScope typed_scope).
Proof.
  apply (trimToScope_keeps_focus typed_scope typed_focus).
  - apply list_elem_of_here.
  - right. right. reflexivity.
Defined.

Lemma reachable_no_focus tps t :
  (∀ tp, tp ∈ tps -> ¬ has_term tp POF) -> reachable tps t -> t = POF.
Proof.
  intros Hnone. induction 1 as [|tp u t Htp Hu _ IH Ht]; [reflexivity|].
  subst u. by apply Hnone in Htp.
Qed.

Lemma filter_none (keep : triplePattern -> bool) (tps : list triplePattern) :
  (∀ tp, tp ∈ tps -> keep tp ≠ true) ->
  filter (fun tp => keep tp = true) tps = [].
Proof.
  induction tps as [|tp tps IH]; intros Hnone; [reflexivity|].
  rewrite filter_cons, decide_False by (apply Hnone; apply list_elem_of_here).
  apply IH. intros tp' Htp'. apply Hnone. by apply list_elem_of_further.
Qed.

(** X2.  When no pattern mentions the focus variable, [trimToScope] drops
    every pattern, and the scope map holds the focus variable alone. *)
Theorem trimToScope_no_focus {Template} (b : Scope Template) :
  (∀ tp, tp ∈ Tps b -> ¬ has_term tp POF) ->
  Tps (trimToScope b) = [] ∧ scope (trimToScope b) = {[ POF := true ]}.
Proof.
  intros Hnone. unfold trimToScope. cbn [Tps scope].
  destruct (grow_reachable (Tps b)) as [Hall Hdom]. split.
  - apply filter_none. intros tp Htp Hin.
    apply tp_in_connected in Hin as (u & Hu & Hr).
    apply (reachable_no_focus _ _ Hnone) in Hr. subst u.
    by apply Hnone in Htp.
  - apply all_true_eq; [exact Hall|apply all_true_singleton|].
    apply set_eq. intros t. rewrite dom_singleton_L, elem_of_singleton. split.
    + intros Ht. apply (reachable_no_focus (Tps b) t Hnone).
      exact (proj1 (Hdom t) Ht).
    + intros ->. apply (proj2 (Hdom POF)). constructor.
Qed.

Lemma trimToScope_no_focus_witness :
  Tps no_focus = [ {| S := "?a"; P := "?b"; O := "?c" |} ] ∧
  Tps (trimToScope no_focus) = [] ∧
  scope (trimToScope no_focus) = {[ POF := true ]}.
Proof.
  split; [reflexivity|].
  apply (trimToScope_no_focus no_focus).
  intros tp Htp. apply list_elem_of_singleton in Htp as ->.
  intros [H | [H | H]]; discriminate H.
Defined.

(** X3.  The order of the patterns has no part in what [trimToScope]
    keeps: on two pattern lists with the same patterns it computes the same
    scope map, and keeps the same patterns, each as often. *)
Theorem trimToScope_permutation {Template} (b1 b2 : Scope Template) :
  Tps b1 ≡ₚ Tps b2 ->
  scope (trimToScope b1) = scope (trimToScope b2) ∧
  Tps (trimToScope b1) ≡ₚ Tps (trimToScope b2).
Proof.
  intros Hperm. unfold trimToScope. cbn [Tps scope].
  destruct (grow_reachable (Tps b1)) as [Hall1 Hdom1].
  destruct (grow_reachable (Tps b2)) as [Hall2 Hdom2].
  assert (grow (Tps b1) 0%nat {[ POF := true ]}
          = grow (Tps b2) 0%nat {[ POF := true ]}) as Hsame.
  { apply all_true_eq; [exact Hall1|exact Hall2|]. apply set_eq. intros t.
    split; intros Ht.
    - apply (proj2 (Hdom2 t)). apply (proj1 (Hdom1 t)) in Ht.
      revert Ht. apply reachable_mono. intros tp. by rewrite Hperm.
    - apply (proj2 (Hdom1 t)). apply (proj1 (Hdom2 t)) in Ht.
      revert Ht. apply reachable_mono. intros tp. by rewrite Hperm. }
  split; [exact Hsame|]. rewrite Hsame. by apply filter_Permutation.
Qed.

Lemma trimToScope_permutation_witness :
  scope (trimToScope typed_scope) = scope (trimToScope typed_swapped) ∧
  Tps (trimToScope typed_scope) ≡ₚ Tps (trimToScope typed_swapped).
Proof.
  apply (trimToScope_permutation typed_scope typed_swapped).
  apply perm_swap.
Defined.

Lemma scan_bound tps sc : dom (scan tps sc) ⊆ terms tps ∪ dom sc.
Proof.
  revert sc. induction tps as [|tp tps IH]; intros sc; simpl; [set_solver|].
  etrans; [apply IH|]. destruct (tp_in tp sc); [|set_solver].
  rewrite dom_addToScope. set_solver.
Qed.

(** A pass that adds a key leaves fewer terms outside the scope. *)
Lemma todo_decreases tps sz sc :
  sz ≠ size sc -> (todo tps (size sc) (scan tps sc) < todo tps sz sc)%nat.
Proof.
  intros Hsz. unfold todo. rewrite (decide_False (P := sz = size sc)) by done.
  case_decide as Hgrown; [lia|]. apply le_n_S, subset_size.
  pose proof (scan_incr tps sc) as Hincr.
  pose proof (scan_bound tps sc) as Hbound.
  split.
  - intros x. rewrite !elem_of_difference. intros [Hx Hout]. split; [done|].
    intros Hin. by apply Hout, Hincr.
  - intros Hback. apply Hgrown. rewrite <- !size_dom. f_equal.
    apply set_eq. intros x. split; [apply Hincr|]. intros Hx.
    destruct (decide (x ∈ dom sc)) as [|Hn]; [done|]. exfalso.
    assert (x ∈ terms tps ∖ dom sc) as Hd.
    { apply elem_of_difference. split; [|done].
      apply Hbound in Hx. apply elem_of_union in Hx as [?|?]; done. }
    apply Hback in Hd. apply elem_of_difference in Hd as [_ Hd]. done.
Qed.

Lemma grow_run_enough passes tps sz sc :
  (todo tps sz sc <= passes)%nat ->
  grow_run passes tps sz sc = Some (grow tps sz sc).
Proof.
  revert sz sc. induction passes as [|n IH]; intros sz sc Hle;
    rewrite grow_unfold_if; simpl;
    destruct (decide (sz = size sc)) as [Heq|Hne]; try reflexivity.
  - unfold todo in Hle. rewrite decide_False in Hle by done. lia.
  - apply IH. pose proof (todo_decreases tps sz sc Hne). lia.
Qed.

Lemma size_union_le (X Y : gset string) :
  (size (X ∪ Y) <= size X + size Y)%nat.
Proof.
  rewrite size_union_alt.
  assert (size (Y ∖ X) <= size Y)%nat; [|lia].
  apply subseteq_size, subseteq_difference_l. reflexivity.
Qed.

Lemma size_terms tps : (size (terms tps) <= 3 * length tps)%nat.
Proof.
  induction tps as [|tp tps IH].
  { change (terms []) with (∅ : gset string). rewrite size_empty. simpl. lia. }
  change (terms (tp :: tps)) with ({[S tp; P tp; O tp]} ∪ terms tps).
  rewrite length_cons.
  pose proof (size_union_le {[S tp; P tp; O tp]} (terms tps)) as Hall.
  pose proof (size_union_le {[S tp; P tp]} {[O tp]}) as H3.
  pose proof (size_union_le {[S tp]} {[P tp]}) as H2.
  rewrite !size_singleton in *. lia.
Qed.

(** X4.  The loop of [trimToScope] makes at most [3 * len(b.Tps) + 1]
    passes over the patterns before it exits by its own condition: every
    pass but the last adds a term of a pattern to the scope map. *)
Theorem trimToScope_passes {Template} (b : Scope Template) :
  grow_run (3 * length (Tps b) + 1) (Tps b) 0%nat {[ POF := true ]}
  = Some (scope (trimToScope b)).
Proof.
  unfold trimToScope. cbn [scope]. apply grow_run_enough.
  unfold todo. rewrite map_size_singleton.
  rewrite decide_False by lia.
  assert (size (terms (Tps b) ∖ dom ({[ POF := true ]} : gmap string bool))
          <= size (terms (Tps b)))%nat.
  { apply subseteq_size, subseteq_difference_l. reflexivity. }
  pose proof (size_terms (Tps b)). lia.
Qed.

(** ** Classification and rendering together *)

Lemma rule_has_POF tp : rule tp ≠ None -> has_term tp POF.
Proof.
  unfold rule, has_term. repeat case_decide; try done; intros _; auto.
  destruct_and!. auto.
Qed.

Lemma typeOf_filter (keep : triplePattern -> bool) tps :
  (∀ tp, rule tp ≠ None -> keep tp = true) ->
  typeOf (filter (fun tp => keep tp = true) tps) = typeOf tps.
Proof.
  intros Hkeep. rewrite !typeOf_rule.
  induction tps as [|tp tps IH]; [reflexivity|].
  rewrite filter_cons. destruct (rule tp) as [ty|] eqn:Hrule.
  - rewrite decide_True by (apply Hkeep; by rewrite Hrule).
    simpl. by rewrite Hrule.
  - simpl. rewrite Hrule. case_decide; [|exact IH].
    simpl. by rewrite Hrule.
Qed.

Lemma RecommendationType_trimmed {Template} (b : Scope Template) :
  RecommendationType (trimToScope b) = RecommendationType b.
Proof.
  unfold RecommendationType, trimToScope. cbn [pathLength Tps].
  case_decide; [reflexivity|]. apply typeOf_filter.
  intros tp Hrule. apply tp_in_connected, has_term_POF_connected.
  by apply rule_has_POF.
Qed.

(** X5.  Trimming does not change the classification: the patterns that
    decide [RecommendationType] all hold the focus variable, and these
    are kept in their order. *)
Theorem RecommendationType_trimToScope {Template} (b : Scope Template) :
  RecommendationType (trimToScope b) = RecommendationType b ∧
  typeOf (Tps (trimToScope b)) = typeOf (Tps b).
Proof.
  split; [apply RecommendationType_trimmed|].
  unfold trimToScope. cbn [Tps]. apply typeOf_filter.
  intros tp Hrule. apply tp_in_connected, has_term_POF_connected.
  by apply rule_has_POF.
Qed.

Lemma addIntermediatePath_fields {Template} (b b' : Scope Template) :
  addIntermediatePath b = Ok b' ->
  template b' = template b ∧ pathLength b' = pathLength b ∧
  Keyword b' = Keyword b ∧ current b' = current b ∧ scope b' = scope b.
Proof.
  unfold addIntermediatePath. case_decide; [by intros [= <-]|].
  destruct (list_find _ _) as [[ind tp]|]; [|by intros [= <-]].
  destruct (intermediate _ _ _ _ _) as [r|]; [|discriminate].
  simpl. by intros [= <-].
Qed.

(** X6.  A call of [RecommendationQuery] that returns leaves the
    classification of the Scope as it was before the call, although it
    trims the patterns and expands the path. *)
Theorem RecommendationType_after_query {Template}
  (Execute : Template -> Scope Template -> string) (b b' : Scope Template) q :
  RecommendationQuery Execute b = Ok (q, b') ->
  RecommendationType b' = RecommendationType b.
Proof.
  unfold RecommendationQuery. intros Hquery.
  destruct (addIntermediatePath (trimToScope b)) as [b1|] eqn:Hpath;
    [|discriminate Hquery].
  simpl in Hquery. destruct (template b1); [|discriminate Hquery].
  injection Hquery as _ <-.
  rewrite <- (RecommendationType_trimmed b).
  destruct (decide (pathLength (trimToScope b) = 0)) as [Hzero|Hpos].
  - rewrite addIntermediatePath_idle in Hpath by (by left). by injection Hpath as <-.
  - apply addIntermediatePath_fields in Hpath as (_ & Hlen & _).
    unfold RecommendationType. rewrite Hlen. by rewrite !decide_True.
Qed.

Lemma RecommendationType_after_query_witness :
  ∃ q b', RecommendationQuery exec_template class_focus = Ok (q, b') ∧
          RecommendationType b' = RecommendationType class_focus.
Proof.
  assert (∃ q b', RecommendationQuery exec_template class_focus = Ok (q, b'))
    as (q & b' & Hquery).
  { eexists. eexists.
    erewrite (RecommendationQuery_run 3); [|vm_compute; reflexivity].
    vm_compute. reflexivity. }
  exists q, b'. split; [exact Hquery|].
  exact (RecommendationType_after_query exec_template class_focus b' q Hquery).
Defined.

(** ** More on path expansion *)

Lemma Itoa_not_empty i : Itoa i ≠ EmptyString.
Proof.
  unfold Itoa, NilZero.string_of_int.
  destruct (Z.to_int i) as [d|d]; [|discriminate].
  destruct d; discriminate.
Qed.

Lemma POF_hop_not_POF i : "?POF" +:+ Itoa i ≠ POF.
Proof.
  intros Heq. apply (Itoa_not_empty i).
  change POF with ("?POF" +:+ EmptyString) in Heq.
  by apply (String.app_inj "?POF") in Heq.
Qed.

Lemma from1_drop1 s : s ≠ EmptyString -> from1 s = Ok (drop1 s).
Proof. destruct s; [done|reflexivity]. Qed.

(** The loop of the intermediate hops in closed form. *)
Lemma intermediate_closed tp n i inter tps :
  1 <= i -> inter = inter_var tp (i - 1) ->
  S tp ≠ EmptyString -> O tp ≠ EmptyString ->
  intermediate tp n i inter tps
  = Ok (tps ++ (inter_hop tp <$> seqZ i (Z.of_nat n)),
        inter_var tp (i + Z.of_nat n - 1)).
Proof.
  intros Hi Hinter HS HO. revert i inter tps Hi Hinter.
  induction n as [|n IH]; intros i inter tps Hi Hinter.
  { cbn [intermediate]. rewrite seqZ_nil by lia. rewrite fmap_nil, app_nil_r.
    replace (i + Z.of_nat 0 - 1) with (i - 1) by lia. by rewrite Hinter. }
  cbn [intermediate]. rewrite (from1_drop1 _ HS), (from1_drop1 _ HO). simpl.
  assert ("?" +:+ drop1 (S tp) +:+ drop1 (O tp) +:+ Itoa i = inter_var tp i)
    as Hvar.
  { unfold inter_var. by rewrite decide_False by lia. }
  rewrite Hvar. rewrite (IH (i + 1)); [|lia|f_equal; lia].
  rewrite (seqZ_cons i) by lia. rewrite fmap_cons, <- app_assoc. simpl.
  replace (Z.pred (Z.of_nat (Datatypes.S n))) with (Z.of_nat n) by lia.
  replace (Z.succ i) with (i + 1) by lia.
  replace (i + 1 + Z.of_nat n - 1) with (i + Z.of_nat (Datatypes.S n) - 1) by lia.
  unfold inter_hop at 2. by rewrite Hinter.
Qed.

Lemma intermediate_Panic tp n i inter tps :
  intermediate tp n i inter tps = Panic <->
  n ≠ 0%nat ∧ (S tp = EmptyString ∨ O tp = EmptyString).
Proof.
  split.
  - intros Hpanic. destruct (decide (n = 0%nat)) as [->|Hn]; [discriminate|].
    split; [done|].
    destruct (decide (S tp = EmptyString)) as [|HS]; [by left|].
    destruct (decide (O tp = EmptyString)) as [|HO]; [by right|].
    destruct (intermediate_ok tp n i inter tps) as [r Hr]; [by right|].
    congruence.
  - intros [Hn Hempty]. destruct n as [|n]; [done|]. simpl.
    destruct Hempty as [-> | ->]; [reflexivity|].
    by destruct (from1 (S tp)).
Qed.

Lemma alter_insert_at {A} (f : A -> A) (l : list A) (i : nat) (x : A) :
  l !! i = Some x -> alter f i l = <[i := f x]> l.
Proof.
  revert i. induction l as [|y l IH]; intros [|i] Hlook; simplify_eq/=;
    [reflexivity|].
  f_equal. by apply IH.
Qed.

(** X7.  The patterns after path expansion, in closed form.  For a path
    length [n] of at least one, [addIntermediatePath] puts the last hop, with
    the predicate [?POFn] and the object of the focus pattern, in the place of
    the first pattern whose predicate is the focus variable, and appends the
    hops [1] to [n - 1] in this order; hop [i] leads from the variable
    after hop [i - 1] (the subject of the focus pattern for the first hop)
    to the variable [?<subject><object>i], both named without their first
    byte.  All other patterns stay as they are. *)
Theorem addIntermediatePath_chain {Template} (b b' : Scope Template) ind tp :
  1 <= pathLength b ->
  list_find (fun tp => P tp = POF) (Tps b) = Some (ind, tp) ->
  addIntermediatePath b = Ok b' ->
  Tps b' = <[ind := last_hop tp (pathLength b)]> (Tps b)
           ++ (inter_hop tp <$> seqZ 1 (pathLength b - 1)) ∧
  length (Tps b') = (length (Tps b) + Z.to_nat (pathLength b - 1))%nat.
Proof.
  intros Hlen Hfind Hok.
  assert (Tps b' = <[ind := last_hop tp (pathLength b)]> (Tps b)
                   ++ (inter_hop tp <$> seqZ 1 (pathLength b - 1))) as Htps.
  { unfold addIntermediatePath in Hok.
    rewrite decide_False in Hok by lia. rewrite Hfind in Hok.
    apply list_find_Some in Hfind as (Hlook & _ & _).
    destruct (decide (pathLength b = 1)) as [Hone|Hmore].
    - rewrite Hone in Hok |- *. simpl in Hok. injection Hok as <-. simpl.
      rewrite app_nil_r. rewrite (alter_insert_at _ _ _ tp Hlook).
      reflexivity.
    - destruct (intermediate tp (Z.to_nat (pathLength b - 1)) 1 (S tp) (Tps b))
        as [r|] eqn:Hinter; [|discriminate Hok].
      assert (S tp ≠ EmptyString ∧ O tp ≠ EmptyString) as [HS HO].
      { destruct (decide (S tp = EmptyString)) as [HS|HS];
          [|destruct (decide (O tp = EmptyString)) as [HO|HO]; [|done]].
        - assert (intermediate tp (Z.to_nat (pathLength b - 1)) 1 (S tp) (Tps b)
                  = Panic) as Hp by (apply intermediate_Panic; split; [lia|by left]).
          congruence.
        - assert (intermediate tp (Z.to_nat (pathLength b - 1)) 1 (S tp) (Tps b)
                  = Panic) as Hp by (apply intermediate_Panic; split; [lia|by right]).
          congruence. }
      rewrite intermediate_closed in Hinter; [|lia|reflexivity|done|done].
      injection Hinter as <-. simpl in Hok. injection Hok as <-. simpl.
      rewrite Z2Nat.id by lia.
      rewrite alter_app_l by (by eapply lookup_lt_Some).
      f_equal. rewrite (alter_insert_at _ _ _ tp Hlook).
      unfold last_hop. do 3 f_equal. lia. }
  split; [exact Htps|].
  rewrite Htps, length_app, length_insert, length_fmap, length_seqZ. reflexivity.
Qed.

Lemma addIntermediatePath_chain_witness :
  ∃ b', addIntermediatePath three_hops = Ok b' ∧
        Tps b' = <[0%nat := last_hop {| S := "?s"; P := "?POF"; O := "?FillVar" |} 3]>
                   (Tps three_hops)
                 ++ (inter_hop {| S := "?s"; P := "?POF"; O := "?FillVar" |}
                       <$> seqZ 1 2) ∧
        length (Tps b') = 3%nat.
Proof.
  assert (∃ b', addIntermediatePath three_hops = Ok b') as [b' Hok].
  { eexists. vm_compute. reflexivity. }
  exists b'. split; [exact Hok|].
  apply (addIntermediatePath_chain three_hops b' 0%nat
           {| S := "?s"; P := "?POF"; O := "?FillVar" |}).
  - simpl. lia.
  - reflexivity.
  - exact Hok.
Defined.

(** X8.  [addIntermediatePath] panics in one case only: the path length is
    at least two and the first pattern whose predicate is the focus
    variable has an empty subject or an empty object. *)
Theorem addIntermediatePath_Panic {Template} (b : Scope Template) :
  addIntermediatePath b = Panic <->
  2 <= pathLength b ∧
  ∃ ind tp, list_find (fun tp => P tp = POF) (Tps b) = Some (ind, tp) ∧
            (S tp = EmptyString ∨ O tp = EmptyString).
Proof.
  unfold addIntermediatePath. split.
  - case_decide as Hzero; [discriminate|].
    destruct (list_find _ (Tps b)) as [[ind tp]|] eqn:Hfind; [|discriminate].
    destruct (intermediate tp (Z.to_nat (pathLength b - 1)) 1 (S tp) (Tps b))
      as [r|] eqn:Hinter; [discriminate|].
    intros _. apply intermediate_Panic in Hinter as [Hn Hempty].
    split; [lia|]. by exists ind, tp.
  - intros (Hlen & ind & tp & Hfind & Hempty).
    rewrite decide_False by lia. rewrite Hfind.
    assert (intermediate tp (Z.to_nat (pathLength b - 1)) 1 (S tp) (Tps b)
            = Panic) as -> by (apply intermediate_Panic; split; [lia|done]).
    reflexivity.
Qed.

(** ** When rendering returns *)

(** The first pattern with the focus variable as predicate is the same
    before and after a filter that keeps all such patterns. *)
Lemma list_find_POF_filter (keep : triplePattern -> bool) tps tp :
  (∀ tp, P tp = POF -> keep tp = true) ->
  (∃ i, list_find (fun tp => P tp = POF)
                  (filter (fun tp => keep tp = true) tps) = Some (i, tp))
  <-> (∃ i, list_find (fun tp => P tp = POF) tps = Some (i, tp)).
Proof.
  intros Hkeep. induction tps as [|tp0 tps IH].
  { split; intros [i Hi]; discriminate Hi. }
  rewrite filter_cons. cbn [list_find].
  destruct (decide (P tp0 = POF)) as [Hpof|Hother].
  - rewrite decide_True by (by apply Hkeep). cbn [list_find].
    rewrite decide_True by done.
    split; intros [i Hi]; injection Hi as _ ->; eauto.
  - assert ((∃ i, prod_map Datatypes.S id
                    <$> list_find (fun tp => P tp = POF) tps = Some (i, tp))
            <-> (∃ i, list_find (fun tp => P tp = POF) tps = Some (i, tp)))
      as Hshift.
    { split.
      - intros [i Hi]. destruct (list_find _ tps) as [[j tp']|]; [|done].
        injection Hi as _ <-. eauto.
      - intros [i ->]. simpl. eauto. }
    rewrite Hshift, <- IH. case_decide; [|done].
    cbn [list_find]. rewrite decide_False by done.
    split.
    + intros [i Hi].
      destruct (list_find _ (filter _ tps)) as [[j tp']|]; [|done].
      injection Hi as _ <-. eauto.
    + intros [i ->]. simpl. eauto.
Qed.

Lemma tp_in_POF tps tp :
  P tp = POF -> tp_in tp (grow tps 0%nat {[ POF := true ]}) = true.
Proof.
  intros Hpof. apply tp_in_connected, has_term_POF_connected.
  right. left. by rewrite Hpof.
Qed.

(** X9.  [RecommendationQuery] panics in two cases only: the template of
    the Scope is nil, or the path length is at least two and the first
    pattern whose predicate is the focus variable has an empty subject or
    an empty object.  In every other case it returns a text. *)
Theorem RecommendationQuery_Panic {Template}
  (Execute : Template -> Scope Template -> string) (b : Scope Template) :
  RecommendationQuery Execute b = Panic <->
  template b = None ∨
  (2 <= pathLength b ∧
   ∃ ind tp, list_find (fun tp => P tp = POF) (Tps b) = Some (ind, tp) ∧
             (S tp = EmptyString ∨ O tp = EmptyString)).
Proof.
  unfold RecommendationQuery.
  set (keep := fun tp => tp_in tp (grow (Tps b) 0%nat {[ POF := true ]})).
  assert (∀ tp, P tp = POF -> keep tp = true) as Hkeep
    by (intros tp; apply tp_in_POF).
  split.
  - intros Hpanic.
    destruct (addIntermediatePath (trimToScope b)) as [b1|] eqn:Hpath.
    + left. apply addIntermediatePath_fields in Hpath as (Htmpl & _).
      simpl in Hpanic. rewrite Htmpl in Hpanic. simpl in Hpanic.
      by destruct (template b).
    + right. unfold addIntermediatePath in Hpath.
      case_decide as Hzero; [discriminate|].
      destruct (list_find _ (Tps (trimToScope b))) as [[ind tp]|] eqn:Hfind;
        [|discriminate].
      destruct (intermediate _ _ _ _ _) as [r|] eqn:Hinter; [discriminate|].
      apply intermediate_Panic in Hinter as [Hn Hempty].
      simpl in Hn. split; [lia|].
      destruct (proj1 (list_find_POF_filter keep (Tps b) tp Hkeep)) as [i Hi];
        [by exists ind|].
      by exists i, tp.
  - intros [Hnil|(Hlen & ind & tp & Hfind & Hempty)].
    + destruct (addIntermediatePath (trimToScope b)) as [b1|] eqn:Hpath;
        [|reflexivity].
      apply addIntermediatePath_fields in Hpath as (Htmpl & _).
      simpl. rewrite Htmpl. simpl. by rewrite Hnil.
    + destruct (proj2 (list_find_POF_filter keep (Tps b) tp Hkeep)) as [i Hi];
        [by exists ind|].
      assert (addIntermediatePath (trimToScope b) = Panic) as ->; [|reflexivity].
      unfold addIntermediatePath. simpl. rewrite decide_False by lia.
      unfold keep in Hi. rewrite Hi.
      match goal with
      | |- context [intermediate ?a ?n ?k ?x ?l] =>
          assert (intermediate a n k x l = Panic) as ->; [|reflexivity]
      end.
      apply intermediate_Panic. split; [lia|done].
Qed.

Lemma length_not_zero (s : string) :
  String.length s ≠ 0%nat <-> s ≠ EmptyString.
Proof. destruct s; simpl; split; intros H; try done. Qed.

Section SetterFacts.
Context {Template : Type}.
Variable TrimSpace : string -> string.
Variable Atoi : string -> Z.

Lemma perform_well_formed (b : Scope Template) c :
  well_formed b -> well_formed (perform TrimSpace Atoi b c).
Proof.
  intros (HS & HO & Htps). destruct c; simpl.
  - unfold setKeyword. by case_decide.
  - unfold setSubject. case_decide as Hlen; [|done].
    split; [by apply length_not_zero|done].
  - unfold setPredicate. by case_decide.
  - unfold setObject. case_decide as Hlen; [|done].
    split; [done|]. split; [by apply length_not_zero|done].
  - split; [done|]. split; [done|]. apply Forall_app. split; [done|].
    by apply Forall_singleton.
  - done.
Qed.

Lemma perform_template (b : Scope Template) c :
  template (perform TrimSpace Atoi b c) = template b.
Proof.
  destruct c; simpl; try reflexivity.
  - unfold setKeyword. by case_decide.
  - unfold setSubject. by case_decide.
  - unfold setPredicate. by case_decide.
  - unfold setObject. by case_decide.
Qed.

Lemma run_well_formed calls (b : Scope Template) :
  well_formed b ->
  well_formed (run TrimSpace Atoi calls b) ∧
  template (run TrimSpace Atoi calls b) = template b.
Proof.
  revert b. induction calls as [|c calls IH]; intros b Hwf; [done|].
  unfold run. simpl.
  destruct (IH (perform TrimSpace Atoi b c)) as [Hwf' Htmpl];
    [by apply perform_well_formed|].
  split; [exact Hwf'|]. unfold run in Htmpl. rewrite Htmpl.
  apply perform_template.
Qed.

Lemma perform_agree (b1 b2 : Scope Template) c :
  agree b1 b2 ->
  agree (perform TrimSpace Atoi b1 c) (perform TrimSpace Atoi b2 c).
Proof.
  intros (Hcur & Htps & Htmpl & Hkey & Hlen & Hpof).
  destruct c; simpl;
    unfold setKeyword, setSubject, setPredicate, setObject, setPathLength,
      addTriplePattern, withCurrent, agree;
    try case_decide; simpl; rewrite ?Hcur, ?Htps; done.
Qed.

Lemma run_agree calls (b1 b2 : Scope Template) :
  agree b1 b2 ->
  agree (run TrimSpace Atoi calls b1) (run TrimSpace Atoi calls b2).
Proof.
  revert b1 b2. induction calls as [|c calls IH]; intros b1 b2 Hagree; [done|].
  unfold run. simpl. apply IH. by apply perform_agree.
Qed.

End SetterFacts.

Lemma trimToScope_agree {Template} (b1 b2 : Scope Template) :
  agree b1 b2 -> trimToScope b1 = trimToScope b2.
Proof.
  intros (Hcur & Htps & Htmpl & Hkey & Hlen & Hpof).
  unfold trimToScope. by rewrite Hcur, Htps, Htmpl, Hkey, Hlen, Hpof.
Qed.

(** X10.  Rendering returns on every Scope that the setters build from a
    Scope with a template whose patterns, and whose pattern being built,
    have a subject and an object that are not empty: the setters never store
    an empty term, so that path expansion finds its slices in range. *)
Theorem RecommendationQuery_returns {Template}
  (Execute : Template -> Scope Template -> string)
  (TrimSpace : string -> string) (Atoi : string -> Z)
  (b : Scope Template) (calls : list call) :
  well_formed b -> template b ≠ None ->
  well_formed (run TrimSpace Atoi calls b) ∧
  ∃ q b', RecommendationQuery Execute (run TrimSpace Atoi calls b) = Ok (q, b').
Proof.
  intros Hwf Htmpl.
  destruct (run_well_formed TrimSpace Atoi calls b Hwf) as [Hwf' Htmpl'].
  split; [exact Hwf'|].
  set (b0 := run TrimSpace Atoi calls b) in *.
  destruct Hwf' as (_ & _ & Hterms).
  assert (∃ b1, addIntermediatePath (trimToScope b0) = Ok b1) as [b1 Hpath].
  { unfold addIntermediatePath. case_decide; [eauto|].
    destruct (list_find _ (Tps (trimToScope b0))) as [[ind tp]|] eqn:Hfind;
      [|eauto].
    apply list_find_Some in Hfind as (Hlook & _ & _).
    apply list_elem_of_lookup_2, list_elem_of_filter in Hlook as [_ Htp].
    unfold terms_present in Hterms. rewrite Forall_forall in Hterms.
    destruct (intermediate_ok tp (Z.to_nat (pathLength (trimToScope b0) - 1))
                1 (S tp) (Tps (trimToScope b0))) as [r Hr];
      [right; by apply Hterms|].
    rewrite Hr. simpl. eauto. }
  unfold RecommendationQuery. rewrite Hpath. simpl.
  apply addIntermediatePath_fields in Hpath as (Htmpl1 & _).
  rewrite Htmpl1. simpl. rewrite Htmpl'.
  destruct (template b) as [t|]; [eauto|done].
Qed.

Lemma RecommendationQuery_returns_witness :
  well_formed (run (fun s => s) (fun _ => 3)
                 [CallSetObject "?o"; CallAddTriplePattern; CallSetPathLength "3"]
                 one_hop) ∧
  ∃ q b', RecommendationQuery exec_template
            (run (fun s => s) (fun _ => 3)
               [CallSetObject "?o"; CallAddTriplePattern; CallSetPathLength "3"]
               one_hop) = Ok (q, b').
Proof.
  apply (RecommendationQuery_returns exec_template (fun s => s) (fun _ => 3)
           one_hop).
  - split; [discriminate|]. split; [discriminate|].
    apply Forall_singleton. split; discriminate.
  - vm_compute. discriminate.
Defined.

(** X11.  A Scope that was reset behaves as a new one with the same
    template once a subject, a predicate and an object have been set: after
    any further calls of the setters both have the same classification,
    and [RecommendationQuery] returns the same text and leaves the same
    Scope.  [Reset] itself leaves the pattern being built as it was. *)
Theorem Reset_as_new {Template}
  (Parse : string -> option Template)
  (Execute : Template -> Scope Template -> string)
  (TrimSpace : string -> string) (Atoi : string -> Z)
  (b : Scope Template) (tmpl s p o : string) (calls : list call) :
  template b = Parse tmpl ->
  TrimSpace s ≠ EmptyString -> TrimSpace p ≠ EmptyString ->
  TrimSpace o ≠ EmptyString ->
  let all := CallSetSubject s :: CallSetPredicate p :: CallSetObject o :: calls in
  current (Reset b) = current b ∧
  RecommendationType (run TrimSpace Atoi all (Reset b))
  = RecommendationType (run TrimSpace Atoi all (NewScopeWithTemplate Parse tmpl)) ∧
  RecommendationQuery Execute (run TrimSpace Atoi all (Reset b))
  = RecommendationQuery Execute
      (run TrimSpace Atoi all (NewScopeWithTemplate Parse tmpl)).
Proof.
  intros Htmpl Hs Hp Ho all. split; [reflexivity|].
  assert (agree (run TrimSpace Atoi all (Reset b))
                (run TrimSpace Atoi all (NewScopeWithTemplate Parse tmpl)))
    as Hagree.
  { subst all. unfold run. cbn [foldl perform]. apply run_agree.
    apply length_not_zero in Hs, Hp, Ho.
    unfold setObject, setPredicate, setSubject.
    destruct (decide (String.length (TrimSpace s) ≠ 0%nat)); [|done].
    destruct (decide (String.length (TrimSpace p) ≠ 0%nat)); [|done].
    destruct (decide (String.length (TrimSpace o) ≠ 0%nat)); [|done].
    unfold agree. simpl. by rewrite Htmpl. }
  split.
  - destruct Hagree as (_ & Htps & _ & _ & Hlen & _).
    unfold RecommendationType. by rewrite Htps, Hlen.
  - unfold RecommendationQuery. by rewrite (trimToScope_agree _ _ Hagree).
Qed.

Lemma Reset_as_new_witness :
  let all := [CallSetSubject "?s"; CallSetPredicate "a"; CallSetObject "?POF";
              CallAddTriplePattern] in
  current (Reset one_hop) = current one_hop ∧
  RecommendationType (run (fun s => s) (fun _ => 0) all (Reset one_hop))
  = RecommendationType
      (run (fun s => s) (fun _ => 0) all
         (NewScopeWithTemplate parse_actions default_template)) ∧
  RecommendationQuery exec_template
    (run (fun s => s) (fun _ => 0) all (Reset one_hop))
  = RecommendationQuery exec_template
      (run (fun s => s) (fun _ => 0) all
         (NewScopeWithTemplate parse_actions default_template)).
Proof.
  apply (Reset_as_new parse_actions exec_template (fun s => s) (fun _ => 0)
           one_hop default_template "?s" "a" "?POF" [CallAddTriplePattern]).
  - reflexivity.
  - discriminate.
  - discriminate.
  - discriminate.
Defined.

(** ** After path expansion *)

Lemma intermediate_appends tp n i inter tps r :
  intermediate tp n i inter tps = Ok r ->
  ∃ hops, r.1 = tps ++ hops ∧ Forall (fun h => P h ≠ POF) hops.
Proof.
  revert i inter tps. induction n as [|n IH]; intros i inter tps.
  { intros [= <-]. exists []. by rewrite app_nil_r. }
  cbn [intermediate].
  destruct (from1 (S tp)) as [s1|]; [|discriminate].
  destruct (from1 (O tp)) as [o1|]; [|discriminate]. simpl.
  intros Hr. apply IH in Hr as (hops & -> & Hhops).
  eexists (_ :: hops). rewrite <- app_assoc. split; [reflexivity|].
  constructor; [|exact Hhops]. apply POF_hop_not_POF.
Qed.

(** X12.  Path expansion consumes the focus predicate.  When at most one
    pattern has the focus variable as its predicate and the path length is
    not zero, no pattern has it as predicate after [addIntermediatePath],
    and a second call changes nothing. *)
Theorem addIntermediatePath_once {Template} (b b' : Scope Template) :
  pathLength b ≠ 0 ->
  (∀ i j tpi tpj, Tps b !! i = Some tpi -> Tps b !! j = Some tpj ->
                  P tpi = POF -> P tpj = POF -> i = j) ->
  addIntermediatePath b = Ok b' ->
  (∀ tp, tp ∈ Tps b' -> P tp ≠ POF) ∧ addIntermediatePath b' = Ok b'.
Proof.
  intros Hlen Hunique Hok.
  assert (∀ tp, tp ∈ Tps b' -> P tp ≠ POF) as Hnone.
  { unfold addIntermediatePath in Hok. rewrite decide_False in Hok by done.
    destruct (list_find _ (Tps b)) as [[ind tp0]|] eqn:Hfind.
    - destruct (intermediate _ _ _ _ _) as [r|] eqn:Hinter; [|discriminate].
      simpl in Hok. injection Hok as <-. cbn [Tps].
      apply intermediate_appends in Hinter as (hops & Hr & Hhops).
      rewrite Hr. apply list_find_Some in Hfind as (Hlook & Hpof & _).
      intros tp Htp. apply list_elem_of_lookup in Htp as [j Hj].
      rewrite list_lookup_alter in Hj.
      destruct (decide (ind = j)) as [->|Hne].
      + rewrite lookup_app_l in Hj by (by eapply lookup_lt_Some).
        rewrite Hlook in Hj. injection Hj as <-. apply POF_hop_not_POF.
      + apply lookup_app_Some in Hj as [Hj|[_ Hj]].
        * intros Hpof'. apply Hne. by apply (Hunique ind j tp0 tp).
        * rewrite Forall_forall in Hhops. apply Hhops.
          by eapply list_elem_of_lookup_2.
    - injection Hok as <-. apply list_find_None in Hfind.
      rewrite Forall_forall in Hfind. exact Hfind. }
  split; [exact Hnone|]. apply addIntermediatePath_idle. by right.
Qed.

Lemma addIntermediatePath_once_witness :
  ∃ b', addIntermediatePath three_hops = Ok b' ∧
        (∀ tp, tp ∈ Tps b' -> P tp ≠ POF) ∧ addIntermediatePath b' = Ok b'.
Proof.
  assert (∃ b', addIntermediatePath three_hops = Ok b') as [b' Hok].
  { eexists. vm_compute. reflexivity. }
  exists b'. split; [exact Hok|].
  apply (addIntermediatePath_once three_hops b').
  - discriminate.
  - intros [|i] [|j] tpi tpj Hi Hj _ _; try reflexivity; discriminate.
  - exact Hok.
Defined.

(** ** More on the popularity ranker *)

(** X13.  [Swap] exchanges the entries at its two indices and leaves the
    others, so that the ranking keeps its entries; it panics exactly when
    an index is out of range. *)
Theorem Swap_exchanges (bc : ByCount) (i j : nat) :
  ((i < length bc)%nat ∧ (j < length bc)%nat ->
   ∃ bc', Swap bc i j = Ok bc' ∧
          bc' !! i = bc !! j ∧ bc' !! j = bc !! i ∧
          (∀ k, k ≠ i -> k ≠ j -> bc' !! k = bc !! k) ∧
          bc' ≡ₚ bc) ∧
  (¬ ((i < length bc)%nat ∧ (j < length bc)%nat) -> Swap bc i j = Panic).
Proof.
  unfold Swap. unfold ByCount in *. split.
  - intros [Hi Hj].
    destruct (lookup_lt_is_Some_2 bc i Hi) as [ri Hri].
    destruct (lookup_lt_is_Some_2 bc j Hj) as [rj Hrj].
    exists (<[i := rj]> (<[j := ri]> bc)).
    split; [by rewrite Hri, Hrj|].
    rewrite Hri, Hrj.
    split; [|split; [|split]].
    + rewrite list_lookup_insert, decide_True; [done|].
      split; [done|]. by rewrite length_insert.
    + rewrite list_lookup_insert. case_decide as Hij.
      * destruct Hij as [-> _]. congruence.
      * rewrite list_lookup_insert, decide_True by done. done.
    + intros k Hki Hkj. rewrite !list_lookup_insert.
      rewrite !decide_False; [done|intros [? _]; done|intros [? _]; done].
    + by apply Permutation_insert_swap.
  - intros Hout.
    destruct (bc !! i) as [ri|] eqn:Hri; [|reflexivity].
    destruct (bc !! j) as [rj|] eqn:Hrj; [|reflexivity].
    exfalso. apply Hout. split; by eapply lookup_lt_Some.
Qed.

(** X14.  For every list of counts, the minimum that [Measure] returns is
    at most [2147483647] and at most every count, and is [2147483647] or a
    count of the list; the maximum is at least [0] and at least every
    count, and is [0] or a count of the list. *)
Theorem Measure_bounds (pofs : list Z) :
  (Measure pofs).1 <= MaxInt32 ∧ 0 <= (Measure pofs).2 ∧
  (∀ c, c ∈ pofs -> (Measure pofs).1 <= c <= (Measure pofs).2) ∧
  ((Measure pofs).1 = MaxInt32 ∨ (Measure pofs).1 ∈ pofs) ∧
  ((Measure pofs).2 = 0 ∨ (Measure pofs).2 ∈ pofs).
Proof.
  unfold Measure. rewrite Measure_foldl. simpl.
  destruct (foldl_min_spec pofs MaxInt32) as (Hmin_le & Hmin & Hmin_in).
  destruct (foldl_max_spec pofs 0) as (Hmax_le & Hmax & Hmax_in).
  repeat split; auto.
Qed.

(** X15.  [Measure] does not depend on the order of the counts. *)
Theorem Measure_permutation (pofs1 pofs2 : list Z) :
  pofs1 ≡ₚ pofs2 -> Measure pofs1 = Measure pofs2.
Proof.
  intros Hperm. unfold Measure. rewrite !Measure_foldl.
  destruct (foldl_min_spec pofs1 MaxInt32) as (Hle1 & Hall1 & Hin1).
  destruct (foldl_min_spec pofs2 MaxInt32) as (Hle2 & Hall2 & Hin2).
  destruct (foldl_max_spec pofs1 0) as (Hge1 & Hup1 & Hmem1).
  destruct (foldl_max_spec pofs2 0) as (Hge2 & Hup2 & Hmem2).
  f_equal.
  - apply Z.le_antisymm.
    + destruct Hin2 as [->|Hin2]; [done|]. apply Hall1. by rewrite Hperm.
    + destruct Hin1 as [->|Hin1]; [done|]. apply Hall2. by rewrite <- Hperm.
  - apply Z.le_antisymm.
    + destruct Hmem1 as [->|Hmem1]; [done|]. apply Hup2. by rewrite <- Hperm.
    + destruct Hmem2 as [->|Hmem2]; [done|]. apply Hup1. by rewrite Hperm.
Qed.

Lemma Measure_permutation_witness : Measure [3; 1; 2] = Measure [1; 3; 2].
Proof. apply (Measure_permutation [3; 1; 2] [1; 3; 2]). apply perm_swap. Defined.

Lemma sum_for_absent k bindings :
  k ∉ binding_POF <$> bindings -> sum_for k bindings = 0.
Proof.
  induction bindings as [|v bindings IH]; intros Hout; [reflexivity|].
  cbn [sum_for foldr]. fold (sum_for k bindings).
  rewrite fmap_cons in Hout. apply not_elem_of_cons in Hout as [Hne Hout].
  rewrite decide_False by done. by apply IH.
Qed.

Lemma wrap64_fits z : 0 <= z <= MaxInt64 -> wrap64 z = z.
Proof.
  intros Hz. unfold wrap64, MaxInt64 in *. rewrite Z.mod_small; lia.
Qed.

(** The keys of the count map, whatever the counts. *)
Lemma countsOf_dom_foldl (m : gmap string Z) (bindings : list binding) :
  dom (foldl (fun counts v =>
                <[binding_POF v := wrap64 (default 0 (counts !! binding_POF v)
                                           + binding_count v)]> counts)
             m bindings)
  = dom m ∪ list_to_set (binding_POF <$> bindings).
Proof.
  revert m. induction bindings as [|v bindings IH]; intros m.
  { cbn [foldl]. rewrite fmap_nil. cbn [list_to_set]. set_solver. }
  cbn [foldl]. rewrite IH, dom_insert_L, fmap_cons. cbn [list_to_set].
  set_solver.
Qed.

(** The entry of a candidate while its sum fits an [int]. *)
Lemma countsOf_foldl (m : gmap string Z) (bindings : list binding) k :
  (∀ v, v ∈ bindings -> 0 <= binding_count v) ->
  0 <= default 0 (m !! k) ->
  default 0 (m !! k) + sum_for k bindings <= MaxInt64 ->
  foldl (fun counts v =>
           <[binding_POF v := wrap64 (default 0 (counts !! binding_POF v)
                                      + binding_count v)]> counts)
        m bindings !! k
  = if decide (k ∈ binding_POF <$> bindings)
    then Some (default 0 (m !! k) + sum_for k bindings)
    else m !! k.
Proof.
  revert m. induction bindings as [|v bindings IH]; intros m Hpos Hlow Hfit.
  { cbn [foldl]. rewrite fmap_nil.
    destruct (decide (k ∈ [])) as [Hin|_]; [|reflexivity].
    by apply elem_of_nil in Hin. }
  assert (0 <= binding_count v) as Hv by (apply Hpos, list_elem_of_here).
  assert (∀ v', v' ∈ bindings -> 0 <= binding_count v') as Hpos'
    by (intros v' Hv'; by apply Hpos, list_elem_of_further).
  assert (0 <= sum_for k bindings) as Hrest.
  { clear -Hpos'. induction bindings as [|w bindings IH]; simpl; [lia|].
    assert (0 <= binding_count w) by (apply Hpos', list_elem_of_here).
    assert (0 <= sum_for k bindings)
      by (apply IH; intros v' Hv'; by apply Hpos', list_elem_of_further).
    fold (sum_for k bindings). case_decide; lia. }
  cbn [sum_for foldr] in Hfit. fold (sum_for k bindings) in Hfit.
  cbn [foldl]. rewrite fmap_cons. cbn [sum_for foldr].
  fold (sum_for k bindings).
  destruct (decide (binding_POF v = k)) as [Hk|Hk].
  - rewrite Hk in *. rewrite wrap64_fits by lia.
    rewrite IH; [|exact Hpos'|rewrite lookup_insert_eq; simpl; lia
                 |rewrite lookup_insert_eq; simpl; lia].
    rewrite lookup_insert_eq. simpl.
    rewrite (decide_True (P := k ∈ k :: _)) by apply list_elem_of_here.
    destruct (decide (k ∈ binding_POF <$> bindings)) as [Hin|Hout];
      f_equal; [lia|].
    rewrite (sum_for_absent k bindings Hout). lia.
  - rewrite IH; [|exact Hpos'|by rewrite lookup_insert_ne
                 |by rewrite lookup_insert_ne].
    rewrite lookup_insert_ne by done.
    destruct (decide (k ∈ binding_POF <$> bindings)) as [Hin|Hout].
    + rewrite decide_True by (by apply list_elem_of_further). done.
    + rewrite decide_False; [done|].
      intros [?|?]%elem_of_cons; [by apply Hk|by apply Hout].
Qed.

Lemma countsOf_keys (bindings : list binding) :
  dom (countsOf bindings) = list_to_set (binding_POF <$> bindings).
Proof.
  unfold countsOf. rewrite countsOf_dom_foldl, dom_empty_L. set_solver.
Qed.

Lemma sum_for_bounds k bindings :
  (∀ v, v ∈ bindings -> 0 <= binding_count v) ->
  0 <= sum_for k bindings <= sum_all bindings.
Proof.
  induction bindings as [|v bindings IH]; intros Hpos; simpl; [lia|].
  assert (0 <= binding_count v) by (apply Hpos, list_elem_of_here).
  destruct IH as [Hlow Hhigh].
  { intros v' Hv'. by apply Hpos, list_elem_of_further. }
  fold (sum_for k bindings) (sum_all bindings) in *.
  case_decide; lia.
Qed.

(** X16.  The count map holds one entry for every candidate that occurs in
    the bindings, and none else, whatever the counts; as long as the
    additions of the code stay within an [int] of 64 bits (the counts are
    not negative and their sum is at most the largest [int]), the entry of
    a candidate is the sum of the counts of all its bindings. *)
Theorem countsOf_sums (bindings : list binding) :
  dom (countsOf bindings) = list_to_set (binding_POF <$> bindings) ∧
  (∀ k, k ∉ binding_POF <$> bindings -> countsOf bindings !! k = None) ∧
  ((∀ v, v ∈ bindings -> 0 <= binding_count v) ->
   sum_all bindings <= MaxInt64 ->
   ∀ k, k ∈ binding_POF <$> bindings ->
        countsOf bindings !! k = Some (sum_for k bindings) ∧
        0 <= sum_for k bindings <= MaxInt64).
Proof.
  split; [apply countsOf_keys|]. split.
  - intros k Hout. apply not_elem_of_dom. rewrite countsOf_keys.
    by rewrite elem_of_list_to_set.
  - intros Hpos Hfit k Hin.
    pose proof (sum_for_bounds k bindings Hpos) as Hbounds.
    split; [|lia]. unfold countsOf.
    rewrite countsOf_foldl; rewrite ?lookup_empty; simpl; try lia; [|exact Hpos].
    by rewrite decide_True.
Qed.

Lemma countsOf_sums_witness :
  dom (countsOf two) = list_to_set (binding_POF <$> two) ∧
  countsOf two !! "c" = None ∧
  countsOf two !! "b" = Some (sum_for "b" two) ∧
  0 <= sum_for "b" two <= MaxInt64.
Proof.
  destruct (countsOf_sums two) as (Hkeys & Hnone & Hsum).
  split; [exact Hkeys|]. split.
  - apply Hnone. intros Hin.
    apply elem_of_cons in Hin as [H|Hin]; [discriminate H|].
    apply list_elem_of_singleton in Hin. discriminate Hin.
  - apply Hsum.
    + intros v Hv. apply elem_of_cons in Hv as [->|Hv]; [simpl; lia|].
      apply list_elem_of_singleton in Hv as ->. simpl. lia.
    + vm_compute. discriminate.
    + apply list_elem_of_further, list_elem_of_here.
Defined.

(** X17.  Whatever the order in which the range over the count map yields
    its entries, the candidates of the second query are ten of them, or all
    when there are fewer; they are distinct, and each is a candidate of a
    binding, with its entry of the count map as count. *)
Theorem topOf_candidates (bindings : list binding) (ranged : list (string * Z)) :
  ranged ≡ₚ map_to_list (countsOf bindings) ->
  length (topOf ranged) = Nat.min 10 (size (countsOf bindings)) ∧
  NoDup (item <$> topOf ranged) ∧
  ∀ r, r ∈ topOf ranged ->
       countsOf bindings !! item r = Some (count r) ∧
       item r ∈ binding_POF <$> bindings.
Proof.
  intros Hperm. rewrite topOf_take.
  split; [|split].
  - rewrite length_take, length_fmap, Hperm, length_map_to_list. reflexivity.
  - rewrite <- fmap_take, <- list_fmap_compose.
    assert (NoDup (ranged.*1)) as Hnodup.
    { rewrite Hperm. apply NoDup_fst_map_to_list. }
    rewrite <- (take_drop 10 ranged) in Hnodup. rewrite fmap_app in Hnodup.
    apply NoDup_app in Hnodup as [Hnodup _]. exact Hnodup.
  - intros r Hr. apply elem_of_take in Hr as (i & Hr & _).
    apply list_elem_of_lookup_2, list_elem_of_fmap in Hr as ([k c] & -> & Hkc).
    rewrite Hperm in Hkc. apply elem_of_map_to_list in Hkc. simpl.
    split; [exact Hkc|].
    assert (k ∈ dom (countsOf bindings)) as Hdom by (apply elem_of_dom; eauto).
    rewrite countsOf_keys in Hdom. by apply elem_of_list_to_set in Hdom.
Qed.

Lemma topOf_candidates_witness :
  length (topOf two_ranged) = Nat.min 10 (size (countsOf two)) ∧
  NoDup (item <$> topOf two_ranged) ∧
  ∀ r, r ∈ topOf two_ranged ->
       countsOf two !! item r = Some (count r) ∧
       item r ∈ binding_POF <$> two.
Proof.
  apply (topOf_candidates two two_ranged).
  assert (map_to_list (countsOf two) = two_ranged) as ->
    by (vm_compute; reflexivity).
  reflexivity.
Defined.

(** ** Trimming and classification under more patterns and other orders *)

(** X18.  More patterns never disconnect a pattern: what [trimToScope]
    keeps of a pattern list it also keeps of every list that holds these
    patterns. *)
Theorem trimToScope_monotone {Template} (b1 b2 : Scope Template) tp :
  (∀ tp, tp ∈ Tps b1 -> tp ∈ Tps b2) ->
  tp ∈ Tps (trimToScope b1) -> tp ∈ Tps (trimToScope b2).
Proof.
  intros Hsub. unfold trimToScope. cbn [Tps].
  rewrite !list_elem_of_filter, !tp_in_connected.
  intros [(u & Hu & Hr) Htp]. split; [|by apply Hsub].
  exists u. split; [exact Hu|]. by apply (reachable_mono (Tps b1)).
Qed.

Lemma trimToScope_monotone_witness :
  typed_focus ∈ Tps (trimToScope typed_scope).
Proof.
  apply (trimToScope_monotone class_focus typed_scope typed_focus).
  - intros tp Htp. apply list_elem_of_singleton in Htp as ->.
    apply list_elem_of_here.
  - unfold trimToScope. cbn [Tps]. apply list_elem_of_filter.
    split; [|apply list_elem_of_here].
    apply tp_in_connected, has_term_POF_connected. right. right. reflexivity.
Defined.

Lemma typeOf_same tps ty :
  (∃ tp, tp ∈ tps ∧ rule tp = Some ty) ->
  (∀ tp ty', tp ∈ tps -> rule tp = Some ty' -> ty' = ty) ->
  typeOf tps = ty.
Proof.
  rewrite typeOf_rule. induction tps as [|tp0 tps IH]; intros (tp & Htp & Hrule) Hsame.
  { by apply elem_of_nil in Htp. }
  simpl. destruct (rule tp0) as [ty0|] eqn:Hrule0.
  - simpl. apply (Hsame tp0 ty0); [apply list_elem_of_here|exact Hrule0].
  - apply IH.
    + apply elem_of_cons in Htp as [->|Htp]; [congruence|eauto].
    + intros tp' ty' Htp'. apply Hsame. by apply list_elem_of_further.
Qed.

(** X19.  When all patterns that match a rule of the classifier match it to
    the same kind (as when only one pattern holds the focus variable), the
    order of the patterns does not change [RecommendationType]. *)
Theorem RecommendationType_permutation {Template} (b1 b2 : Scope Template) :
  pathLength b1 = pathLength b2 -> Tps b1 ≡ₚ Tps b2 ->
  (∀ tp1 tp2 ty1 ty2, tp1 ∈ Tps b1 -> tp2 ∈ Tps b1 ->
                      rule tp1 = Some ty1 -> rule tp2 = Some ty2 -> ty1 = ty2) ->
  RecommendationType b1 = RecommendationType b2.
Proof.
  intros Hlen Hperm Hsame. unfold RecommendationType. rewrite Hlen.
  case_decide; [reflexivity|].
  destruct (decide (Exists (fun tp => rule tp ≠ None) (Tps b1))) as [Hsome|Hnone].
  - apply Exists_exists in Hsome as (tp & Htp & Hrule).
    destruct (rule tp) as [ty|] eqn:Hty; [|done].
    rewrite (typeOf_same (Tps b1) ty), (typeOf_same (Tps b2) ty); try done.
    + exists tp. split; [by rewrite <- Hperm|done].
    + intros tp' ty' Htp' Hrule'. rewrite <- Hperm in Htp'.
      by apply (Hsame tp' tp ty' ty).
    + by exists tp.
    + intros tp' ty' Htp' Hrule'. by apply (Hsame tp' tp ty' ty).
  - assert (Forall (fun tp => rule tp = None) (Tps b1)) as Hall.
    { apply Forall_forall. intros tp Htp.
      destruct (rule tp) eqn:Hrule; [|done]. exfalso. apply Hnone.
      apply Exists_exists. exists tp. split; [done|]. by rewrite Hrule. }
    rewrite (typeOf_none _ Hall). symmetry. apply typeOf_none.
    by rewrite <- Hperm.
Qed.

Lemma RecommendationType_permutation_witness :
  RecommendationType typed_scope = RecommendationType typed_swapped.
Proof.
  apply (RecommendationType_permutation typed_scope typed_swapped).
  - reflexivity.
  - apply perm_swap.
  - intros tp1 tp2 ty1 ty2 H1 H2.
    apply elem_of_cons in H1 as [->|H1]; [|apply list_elem_of_singleton in H1 as ->];
      (apply elem_of_cons in H2 as [->|H2];
       [|apply list_elem_of_singleton in H2 as ->]);
      vm_compute; congruence.
Defined.

(** The count of a candidate that passes the largest [int] wraps around. *)
Example countsOf_wraps :
  countsOf [ {| binding_POF := "a"; binding_count := 9223372036854775807 |};
             {| binding_POF := "a"; binding_count := 1 |} ] !! "a"
  = Some (-9223372036854775808).
Proof. vm_compute. reflexivity. Qed.
